(** * Polyline simplification and encoding

    A shallow embedding of the geometric core of the static boundary-map
    component: [encodePolyline], [encodeSignedNumber], [encodeNumber],
    [simplifyPath], [getSqDist], [getSqSegDist] and [simplifyDPStep], and
    of the handlers around it, [fetchMapData] and the watcher of the
    location.  Line numbers refer to the component's source file.

    JavaScript Numbers are IEEE 754 binary64 values; they are modelled by
    [spec_float] with the binary64 parameters, so that every arithmetic
    operation of the source rounds exactly as it does in the engine.  The
    32-bit integers produced by the bitwise operators are modelled by [Z]
    with the wrap-around written out. *)

From Stdlib Require Import String Ascii ZArith List Sorted Bool Lia SpecFloat.
From Equations Require Import Equations.
From Equations.Prop Require Import Logic.
Import ListNotations.

Local Open Scope Z_scope.

(** ** JavaScript Numbers *)

Module Number.

Definition number := spec_float.

Definition prec : Z := 53.
Definition emax : Z := 1024.

Definition add : number -> number -> number := SFadd prec emax.
Definition sub : number -> number -> number := SFsub prec emax.
Definition mul : number -> number -> number := SFmul prec emax.
Definition div : number -> number -> number := SFdiv prec emax.
Definition neg : number -> number := SFopp.

(** [a > b], [a < b], [a <= b] and [a !== b] on Numbers: every ordered
    comparison with NaN is false, and [NaN !== x] is true. *)
Definition gt (a b : number) : bool := SFltb b a.
Definition lt (a b : number) : bool := SFltb a b.
Definition le (a b : number) : bool := SFleb a b.
Definition strictNe (a b : number) : bool := negb (SFeqb a b).

(** The Number of an integer (exact when its magnitude is below 2^53). *)
Definition ofZ (z : Z) : number := binary_normalize prec emax z 0 false.

(** A decimal literal [n / 10^k], e.g. [decimal 407 1] for [40.7]: the
    binary64 value nearest to the decimal, which is what correctly rounded
    division of the two exactly representable integers gives. *)
Definition decimal (n : Z) (k : nat) : number :=
  div (ofZ n) (ofZ (10 ^ Z.of_nat k)).

Definition zero : number := S754_zero false.
Definition one : number := ofZ 1.

(** The mathematical value of a finite Number, truncated toward zero. *)
Definition truncate (x : number) : Z :=
  match x with
  | S754_finite s m e =>
      let a := if 0 <=? e then Zpos m * 2 ^ e else Zpos m / 2 ^ (- e) in
      if s then - a else a
  | _ => 0
  end.

(** [intValue x = Some z] when the Number [x] is exactly the integer [z]. *)
Definition intValue (x : number) : option Z :=
  match x with
  | S754_zero _ => Some 0
  | S754_finite s m e =>
      if 0 <=? e then Some (truncate x)
      else if Zpos m mod 2 ^ (- e) =? 0 then Some (truncate x)
      else None
  | _ => None
  end.

(** Wrap an integer into the signed 32-bit range. *)
Definition wrap32 (z : Z) : Z :=
  let u := z mod 2 ^ 32 in
  if 2 ^ 31 <=? u then u - 2 ^ 32 else u.

(** ECMAScript [ToInt32]: NaN, the infinities and the zeros give 0; any
    other Number is truncated toward zero and reduced modulo 2^32. *)
Definition ToInt32 (x : number) : Z := wrap32 (truncate x).

(** ECMAScript [Math.round]: the integral Number closest to [x], the one
    closer to +infinity when two are equally close ([floor (x + 1/2)]);
    NaN, the infinities and the zeros are returned unchanged and a result
    of zero keeps the sign of [x]. *)
Definition Math_round (x : number) : number :=
  match x with
  | S754_finite s m e =>
      if 0 <=? e then x
      else
        let n := ((if s then - (2 * Zpos m) else 2 * Zpos m) + 2 ^ (- e))
                   / 2 ^ (1 - e) in
        if n =? 0 then S754_zero s else ofZ n
  | _ => x
  end.

Definition notNaN (x : number) : Prop := x <> S754_nan.

(** A key that orders the Numbers other than NaN: the class (infinities,
    signs), then the exponent, then the mantissa. *)
Definition class (x : number) : Z :=
  match x with
  | S754_infinity true => -2
  | S754_finite true _ _ => -1
  | S754_finite false _ _ => 1
  | S754_infinity false => 2
  | _ => 0
  end.

Definition major (x : number) : Z :=
  match x with
  | S754_finite s _ e => if s then - e else e
  | _ => 0
  end.

Definition minor (x : number) : Z :=
  match x with
  | S754_finite s m _ => if s then Zneg m else Zpos m
  | _ => 0
  end.

Definition keyLt (a b : number) : Prop :=
  class a < class b \/
  (class a = class b /\
   (major a < major b \/ (major a = major b /\ minor a < minor b))).

Definition keyEq (a b : number) : Prop :=
  class a = class b /\ major a = major b /\ minor a = minor b.

End Number.

Abbreviation number := Number.number.

(** ** JavaScript strings

    A string is its sequence of UTF-16 code units. *)

Definition jsString := list Z.

(** [String.fromCharCode(n)] for an integer [n]: the one code unit
    [ToUint16(n)]. *)
Definition fromCharCode (n : Z) : jsString := [n mod 2 ^ 16].

(** The code units of an ASCII literal. *)
Fixpoint codeUnits (s : string) : jsString :=
  match s with
  | EmptyString => []
  | String c rest => Z.of_N (N_of_ascii c) :: codeUnits rest
  end.

(** ** The delta encoder *)

(** [encodeNumber] (lines 155-163).  Its only caller passes a signed 32-bit
    integer, so [num] is a [Z] in [-2^31, 2^31): on such a value [&] and
    [>>=], which convert their operand with [ToInt32], are [Z.land] and the
    arithmetic right shift [Z.shiftr].  The properties of the source that
    are stated on [encodeNumber] keep [num] in that range. *)
Equations? encodeNumber (num : Z) : jsString
    by wf (Z.to_nat (Z.log2 num)) Nat.lt :=
  encodeNumber num with inspect (Z.leb 0x20 num) := {
    | exist _ true more =>
        fromCharCode (Z.lor 0x20 (Z.land num 0x1f) + 63)
          ++ encodeNumber (Z.shiftr num 5)
    | exist _ false done => fromCharCode (num + 63) }.
Proof.
  apply Z.leb_le in more.
  rewrite Z.log2_shiftr by lia.
  assert (5 <= Z.log2 num) by (apply (Z.log2_le_mono 32 num); lia).
  unfold Nat.lt. lia.
Qed.

(** [encodeSignedNumber] (lines 141-147).  [num << 1] applies [ToInt32]
    to [num] and wraps the doubled value to 32 bits; [~] is the bitwise
    complement of a 32-bit integer.  [signedNumberBits] is the value of
    [sgnNum] that is handed to [encodeNumber]. *)
Definition signedNumberBits (num : number) : Z :=
  let sgnNum := Number.wrap32 (Z.shiftl (Number.ToInt32 num) 1) in
  if Number.lt num Number.zero then Z.lnot sgnNum else sgnNum.

Definition encodeSignedNumber (num : number) : jsString :=
  encodeNumber (signedNumberBits num).

(** A point is a two-element array [[p[0], p[1]]]. *)
Definition point := (number * number)%type.

Definition scale : number := Number.ofZ 100000.

(** The body of the [for] loop of [encodePolyline] (lines 119-130), over
    the points that remain, threading [result], [prevLat] and [prevLng]. *)
Fixpoint encodeLoop (points : list point) (result : jsString)
    (prevLat prevLng : number) : jsString :=
  match points with
  | [] => result
  | p :: rest =>
      let lat := Number.Math_round (Number.mul (fst p) scale) in
      let lng := Number.Math_round (Number.mul (snd p) scale) in
      let dLat := Number.sub lat prevLat in
      let dLng := Number.sub lng prevLng in
      encodeLoop rest
        (result ++ encodeSignedNumber dLat ++ encodeSignedNumber dLng)
        lat lng
  end.

(** [encodePolyline] (lines 114-133). *)
Definition encodePolyline (points : list point) : jsString :=
  encodeLoop points [] Number.zero Number.zero.

(** ** The path simplifier *)

(** [points[i]].  Every access the simplifier makes is in range when the
    path has more than two points; the default stands for [undefined]. *)
Definition at_ (points : list point) (i : nat) : point :=
  nth i points (S754_nan, S754_nan).

(** [getSqDist] (lines 203-207). *)
Definition getSqDist (p1 p2 : point) : number :=
  let dx := Number.sub (fst p1) (fst p2) in
  let dy := Number.sub (snd p1) (snd p2) in
  Number.add (Number.mul dx dx) (Number.mul dy dy).

(** [getSqSegDist] (lines 217-239).  The assignments to [x], [y], [dx] and
    [dy] are rebindings. *)
Definition getSqSegDist (p p1 p2 : point) : number :=
  let x := fst p1 in
  let y := snd p1 in
  let dx := Number.sub (fst p2) x in
  let dy := Number.sub (snd p2) y in
  let '(x, y) :=
    if Number.strictNe dx Number.zero || Number.strictNe dy Number.zero then
      let t :=
        Number.div
          (Number.add (Number.mul (Number.sub (fst p) x) dx)
                      (Number.mul (Number.sub (snd p) y) dy))
          (Number.add (Number.mul dx dx) (Number.mul dy dy)) in
      if Number.gt t Number.one then (fst p2, snd p2)
      else if Number.gt t Number.zero then
        (Number.add x (Number.mul dx t), Number.add y (Number.mul dy t))
      else (x, y)
    else (x, y) in
  let dx := Number.sub (fst p) x in
  let dy := Number.sub (snd p) y in
  Number.add (Number.mul dx dx) (Number.mul dy dy).

(** The [for] loop of [simplifyDPStep] (lines 254-261): [count] iterations
    from index [i], threading [index] and [maxSqDist]. *)
Fixpoint farthestLoop (points : list point) (first last : nat)
    (i count : nat) (index : option nat) (maxSqDist : number)
    : option nat * number :=
  match count with
  | O => (index, maxSqDist)
  | S count' =>
      let sqDist :=
        getSqSegDist (at_ points i) (at_ points first) (at_ points last) in
      if Number.gt sqDist maxSqDist
      then farthestLoop points first last (S i) count' (Some i) sqDist
      else farthestLoop points first last (S i) count' index maxSqDist
  end.

(** The value of [index] after the loop: [i] runs from [first + 1] while
    [i < last]. *)
Definition farthest (points : list point) (first last : nat)
    (sqTolerance : number) : option nat :=
  fst (farthestLoop points first last (S first) (last - S first)%nat
         None sqTolerance).

(** [simplifyDPStep] (lines 250-273).  The array [simplified] that the
    source extends in place is passed in and returned. *)
Equations? simplifyDPStep (points : list point) (first last : nat)
    (sqTolerance : number) (simplified : list point) : list point
    by wf (last - first)%nat Nat.lt :=
  simplifyDPStep points first last sqTolerance simplified
    with inspect (farthest points first last sqTolerance) := {
    | exist _ None _ => simplified
    | exist _ (Some index) found =>
        let simplified1 :=
          if (1 <? index - first)%nat
          then simplifyDPStep points first index sqTolerance simplified
          else simplified in
        let simplified2 := simplified1 ++ [at_ points index] in
        if (1 <? last - index)%nat
        then simplifyDPStep points index last sqTolerance simplified2
        else simplified2 }.
Proof.
  all: assert (visited : forall count i idx m k,
           fst (farthestLoop points first last i count idx m) = Some k ->
           idx = Some k \/ (i <= k < i + count)%nat).
  1,3: induction count as [|count IH]; intros i idx m k; simpl;
    [ intros ->; now left
    | destruct (Number.gt _ m); intros H; apply IH in H;
      destruct H as [H|H];
      [ injection H as <-; right; lia | right; lia
      | now left | right; lia ] ].
  all: destruct (visited _ _ _ _ _ found) as [?|?];
    [discriminate | unfold Nat.lt; lia].
Qed.

(** Stage 1 of [simplifyPath], the [for] loop of lines 181-185: [count]
    iterations from index [i], threading [reducedPoints]. *)
Fixpoint reduceLoop (points : list point) (sqTolerance : number)
    (i count : nat) (reducedPoints : list point) : list point :=
  match count with
  | O => reducedPoints
  | S count' =>
      reduceLoop points sqTolerance (S i) count'
        (if Number.gt (getSqDist (at_ points i) (at_ points (i - 1)))
                      sqTolerance
         then reducedPoints ++ [at_ points i]
         else reducedPoints)
  end.

(** Lines 180-186: [reducedPoints] once stage 1 is over. *)
Definition vertexReduction (points : list point) (sqTolerance : number)
    : list point :=
  reduceLoop points sqTolerance 1 (length points - 1 - 1) [at_ points 0]
    ++ [at_ points (length points - 1)].

(** Lines 189-191: stage 2 on the reduced path. *)
Definition douglasPeucker (reducedPoints : list point)
    (sqTolerance : number) : list point :=
  simplifyDPStep reducedPoints 0 (length reducedPoints - 1) sqTolerance
    [at_ reducedPoints 0]
    ++ [at_ reducedPoints (length reducedPoints - 1)].

(** [simplifyPath] (lines 172-194). *)
Definition simplifyPath (points : list point) (tolerance : number)
    : list point :=
  if (length points <=? 2)%nat then points
  else
    let sqTolerance := Number.mul tolerance tolerance in
    douglasPeucker (vertexReduction points sqTolerance) sqTolerance.

(** ** Notions the statements below use *)

(** A finite Number (neither NaN nor an infinity). *)
Definition isFinite (x : number) : bool :=
  match x with
  | S754_zero _ | S754_finite _ _ _ => true
  | _ => false
  end.

Definition finitePoint (p : point) : bool :=
  isFinite (fst p) && isFinite (snd p).

(** The deltas [dLat], [dLng] that the loop of [encodePolyline] hands to
    [encodeSignedNumber], in order. *)
Fixpoint deltasLoop (points : list point) (prevLat prevLng : number)
    : list number :=
  match points with
  | [] => []
  | p :: rest =>
      let lat := Number.Math_round (Number.mul (fst p) scale) in
      let lng := Number.Math_round (Number.mul (snd p) scale) in
      Number.sub lat prevLat :: Number.sub lng prevLng
        :: deltasLoop rest lat lng
  end.

Definition deltas (points : list point) : list number :=
  deltasLoop points Number.zero Number.zero.

(** A delta whose doubling still fits the signed 32-bit range: an integer
    [z] with [-2^30 <= z < 2^30]. *)
Definition deltaFits (d : number) : bool :=
  match Number.intValue d with
  | Some z => (- 2 ^ 30 <=? z) && (z <? 2 ^ 30)
  | None => false
  end.

(** A chunk of the encoding: continuation characters in [95, 126] and then
    one final character in [63, 94]. *)
Definition wellFormedChunk (chunk : jsString) : Prop :=
  exists continuation final,
    chunk = continuation ++ [final] /\
    Forall (fun c => 95 <= c <= 126) continuation /\
    63 <= final <= 94.

(** The zig-zag decoding step of the polyline format, as the specification
    refers to it (the repository has no decoder): a decoder of the format
    computes [(v & 1) ? ~(v >> 1) : (v >> 1)]. *)
Definition zigzagDecode (v : Z) : Z :=
  if Z.testbit v 0 then Z.lnot (Z.shiftr v 1) else Z.shiftr v 1.


(** Stage 1 as the specification words it: an interior point is kept when
    its squared distance to the previously kept point exceeds the squared
    tolerance. *)
Fixpoint prevKeptLoop (points : list point) (sqTolerance : number)
    (i count : nat) (prevKept : point) (reducedPoints : list point)
    : list point :=
  match count with
  | O => reducedPoints
  | S count' =>
      if Number.gt (getSqDist (at_ points i) prevKept) sqTolerance
      then prevKeptLoop points sqTolerance (S i) count' (at_ points i)
             (reducedPoints ++ [at_ points i])
      else prevKeptLoop points sqTolerance (S i) count' prevKept
             reducedPoints
  end.

Definition vertexReductionPrevKept (points : list point)
    (sqTolerance : number) : list point :=
  prevKeptLoop points sqTolerance 1 (length points - 1 - 1)
    (at_ points 0) [at_ points 0]
    ++ [at_ points (length points - 1)].

(** The test of line 182 at index [i]. *)
Definition farFromPredecessor (points : list point) (sqTolerance : number)
    (i : nat) : bool :=
  Number.gt (getSqDist (at_ points i) (at_ points (i - 1))) sqTolerance.

(** [indices] increase strictly and lie in [lo, hi). *)
Fixpoint ascending (lo hi : nat) (indices : list nat) : Prop :=
  match indices with
  | [] => True
  | i :: rest => (lo <= i < hi)%nat /\ ascending (S i) hi rest
  end.

(** [out] lists the points of [points] at strictly increasing positions:
    an in-order subsequence. *)
Definition subsequenceOf (out points : list point) : Prop :=
  exists indices,
    out = map (at_ points) indices /\
    StronglySorted Nat.lt indices /\
    Forall (fun i => (i < length points)%nat) indices.

(** The test of line 223, [dx !== 0 || dy !== 0]: the division of line 224
    is evaluated exactly when it holds. *)
Definition properSegment (p1 p2 : point) : bool :=
  let dx := Number.sub (fst p2) (fst p1) in
  let dy := Number.sub (snd p2) (snd p1) in
  Number.strictNe dx Number.zero || Number.strictNe dy Number.zero.

(** The divisor of line 224, [dx * dx + dy * dy]. *)
Definition segmentDivisor (p1 p2 : point) : number :=
  let dx := Number.sub (fst p2) (fst p1) in
  let dy := Number.sub (snd p2) (snd p1) in
  Number.add (Number.mul dx dx) (Number.mul dy dy).

(** The projection parameter [t] of line 224. *)
Definition projectionParameter (p p1 p2 : point) : number :=
  let dx := Number.sub (fst p2) (fst p1) in
  let dy := Number.sub (snd p2) (snd p1) in
  Number.div
    (Number.add (Number.mul (Number.sub (fst p) (fst p1)) dx)
                (Number.mul (Number.sub (snd p) (snd p1)) dy))
    (segmentDivisor p1 p2).

(** The point of the segment for a projection parameter [t] clamped to
    [0, 1]: the end point when [t > 1], the interpolated point when
    [t > 0], the start point in every other case. *)
Definition clampedProjection (p1 p2 : point) (t : number) : point :=
  let dx := Number.sub (fst p2) (fst p1) in
  let dy := Number.sub (snd p2) (snd p1) in
  if Number.gt t Number.one then p2
  else if Number.gt t Number.zero then
    (Number.add (fst p1) (Number.mul dx t),
     Number.add (snd p1) (Number.mul dy t))
  else p1.

(** Running the loop of [simplifyDPStep] with two thresholds side by side:
    either both runs are in the same state, or the run with the larger
    threshold [sq2] has found nothing yet and the other run holds a maximum
    that does not exceed [sq2]. *)
Definition inStep (sq2 : number) (state1 state2 : option nat * number)
    : Prop :=
  state1 = state2 \/
  (state2 = (None, sq2) /\ Number.le (snd state1) sq2 = true).

(** ** Concrete inputs *)

Definition pt (x y : Z) : point := (Number.ofZ x, Number.ofZ y).

(** [[38.5,-120.2],[40.7,-120.95],[43.252,-126.453]] *)
Definition googleExample : list point :=
  [ (Number.decimal 385 1, Number.neg (Number.decimal 1202 1));
    (Number.decimal 407 1, Number.neg (Number.decimal 12095 2));
    (Number.decimal 43252 3, Number.neg (Number.decimal 126453 3)) ].

(** [[3,0],[0,1],[2,0],[0,0],[1,4]] *)
Definition zigzagPath : list point :=
  [pt 3 0; pt 0 1; pt 2 0; pt 0 0; pt 1 4].

(** [[0,0],[1,0],[2,0],[3,0]] *)
Definition straightPath : list point := [pt 0 0; pt 1 0; pt 2 0; pt 3 0].

(** [[0,0],[0,3],[3,3],[3,0],[0,0]] *)
Definition squarePath : list point :=
  [pt 0 0; pt 0 3; pt 3 3; pt 3 0; pt 0 0].

(** The closed ring around a square of side 3, one position per unit:
    [[0,0],[1,0],[2,0],[3,0],[3,1],[3,2],[3,3],[2,3],[1,3],[0,3],[0,2],
    [0,1],[0,0]] *)
Definition ringPath : list point :=
  [pt 0 0; pt 1 0; pt 2 0; pt 3 0; pt 3 1; pt 3 2; pt 3 3;
   pt 2 3; pt 1 3; pt 0 3; pt 0 2; pt 0 1; pt 0 0].

(** The same ring in degrees, one position every 0.0005 around a square of
    side 0.0015, as GeoJSON positions [[lon, lat]]. *)
Definition denseRing : list point :=
  map (fun p => (Number.decimal (5 * fst p) 4, Number.decimal (5 * snd p) 4))
    [(0, 0); (1, 0); (2, 0); (3, 0); (3, 1); (3, 2); (3, 3);
     (2, 3); (1, 3); (0, 3); (0, 2); (0, 1); (0, 0)].

(** [Number.MIN_VALUE], the smallest positive Number, 2^-1074. *)
Definition MIN_VALUE : number := S754_finite false 1 (-1074).

(** ** Notions the further properties use *)

(** The squared distance of line 255, from [points[i]] to the segment from
    [points[first]] to [points[last]]. *)
Definition sqSegDistAt (points : list point) (first last i : nat) : number :=
  getSqSegDist (at_ points i) (at_ points first) (at_ points last).

(** No point strictly between two consecutive [indices] is farther than
    the threshold from the segment that joins them. *)
Fixpoint gapsWithin (points : list point) (sqTolerance : number)
    (indices : list nat) : Prop :=
  match indices with
  | [] => True
  | a :: rest =>
      match rest with
      | [] => True
      | b :: _ =>
          forall i, (a < i < b)%nat ->
            Number.gt (sqSegDistAt points a b i) sqTolerance = false
      end /\ gapsWithin points sqTolerance rest
  end.

(** What the loop of [simplifyDPStep] has established when it has visited
    the indices from [start] up to [i]: either nothing exceeds the
    tolerance, or [index] is the first visited index of largest distance
    and that distance exceeds the tolerance. *)
Definition farthestSoFar (points : list point) (first last : nat)
    (sqTolerance : number) (start i : nat) (state : option nat * number)
    : Prop :=
  match fst state with
  | None =>
      snd state = sqTolerance /\
      forall j, (start <= j < i)%nat ->
        Number.gt (sqSegDistAt points first last j) sqTolerance = false
  | Some k =>
      (start <= k < i)%nat /\
      snd state = sqSegDistAt points first last k /\
      Number.gt (sqSegDistAt points first last k) sqTolerance = true /\
      (forall j, (start <= j < i)%nat ->
         Number.gt (sqSegDistAt points first last j)
           (sqSegDistAt points first last k) = false) /\
      (forall j, (start <= j < k)%nat ->
         Number.le (sqSegDistAt points first last k)
           (sqSegDistAt points first last j) = false)
  end.

(** A Number that is NaN or carries the sign bit [s]. *)
Definition hasSign (s : bool) (x : number) : Prop :=
  match x with
  | S754_nan => True
  | S754_zero s' | S754_infinity s' | S754_finite s' _ _ => s' = s
  end.

(** ** The component around the core

    [fetchMapData] (lines 47-105) and the watcher of the [location]
    property (lines 34-39).  The reply of the search service is an input:
    [None] when the request fails, or the array [response.data].  The
    references [mapUrl], [loading], [error] and [altText] are the fields
    of the component's state, which every handler takes and returns.

    [fetchMapData] is asynchronous: a call touches no reference before its
    request settles, and the rest of its body then runs without another
    suspension.  A call is therefore one step on the state the component
    has when the request settles; the steps of several pending calls, and
    the watcher, may come in any order. *)

(** [geojson] of a search result: its [type] and its [coordinates], where
    a position is the array [[lon, lat]]. *)
Inductive geometry :=
| Polygon (coordinates : list (list point))
| MultiPolygon (coordinates : list (list (list point)))
| OtherGeometry.

(** The fields of a search result that [fetchMapData] reads; [centerLat]
    and [centerLon] are [parseFloat(result.lat)] and
    [parseFloat(result.lon)]. *)
Record searchResult := {
  geojson : geometry;
  centerLat : number;
  centerLon : number
}.

Record component := {
  mapUrl : jsString;
  loading : bool;
  error : option jsString;
  altText : jsString
}.

(** What the [try] block can throw. *)
Inductive thrown :=
| RequestFailed
| LocationNotFound
| UnsupportedGeoJSON
| NotAnArray.

(** Lines 71-79 and the receiver of [map] on line 82: [coordinates[0]] of
    a polygon, the rings of a multi-polygon flattened by [flat(2)]; a
    polygon without rings leaves [coordinates] undefined, and
    [coordinates.map] then throws. *)
Definition boundaryCoordinates (g : geometry) : thrown + list point :=
  match g with
  | Polygon [] => inl NotAnArray
  | Polygon (ring :: _) => inr ring
  | MultiPolygon coordinates => inr (concat (concat coordinates))
  | OtherGeometry => inl UnsupportedGeoJSON
  end.

(** The arrow function of line 82, [[coord[1], coord[0]]]. *)
Definition toLatLng (coord : point) : point := (snd coord, fst coord).

(** Lines 82-88: swap to [[lat, lon]], simplify with tolerance 0.001 and
    encode. *)
Definition encodedBoundary (coordinates : list point) : jsString :=
  let latLngs := map toLatLng coordinates in
  let simplifiedLatLngs := simplifyPath latLngs (Number.decimal 1 3) in
  encodePolyline simplifiedLatLngs.

(** The [try] block of [fetchMapData] (lines 48-98): the URL it assigns to
    [mapUrl], or what it throws.  [numberToString] is the conversion of a
    Number inside a template literal and [apiKey] the key read from the
    environment. *)
Definition staticMapUrl (numberToString : number -> jsString)
    (apiKey : jsString) (response : option (list searchResult))
    : thrown + jsString :=
  match response with
  | None => inl RequestFailed
  | Some [] => inl LocationNotFound
  | Some (result :: _) =>
      match boundaryCoordinates (geojson result) with
      | inl exception => inl exception
      | inr coordinates =>
          let pathParam :=
            codeUnits "path=enc:" ++ encodedBoundary coordinates in
          let center :=
            numberToString (centerLat result) ++ codeUnits ","
              ++ numberToString (centerLon result) in
          let zoom := numberToString (Number.ofZ 10) in
          let size := codeUnits "600x300&scale=2" in
          inr (codeUnits
                 "https://maps.googleapis.com/maps/api/staticmap?center="
                 ++ center ++ codeUnits "&zoom=" ++ zoom
                 ++ codeUnits "&size=" ++ size ++ codeUnits "&"
                 ++ pathParam ++ codeUnits "&key=" ++ apiKey)
      end
  end.

(** [fetchMapData] when its request settles with [response], on the state
    [c] the component has at that moment: the rest of [try], then [catch]
    and [finally]. *)
Definition fetchMapData (numberToString : number -> jsString)
    (apiKey : jsString) (response : option (list searchResult))
    (c : component) : component :=
  match staticMapUrl numberToString apiKey response with
  | inr url =>
      {| mapUrl := url; loading := false; error := error c;
         altText := altText c |}
  | inl _ =>
      {| mapUrl := mapUrl c; loading := false;
         error := Some (codeUnits "Failed to load map data.");
         altText := altText c |}
  end.

(** The assignments of the watcher of [props.location] (lines 35-37); the
    request it starts on line 38 settles later, as a step of
    [fetchMapData]. *)
Definition locationWatcher (newLocation : jsString) (c : component)
    : component :=
  {| mapUrl := mapUrl c; loading := true; error := None;
     altText := codeUnits "Static map with " ++ newLocation
                  ++ codeUnits " boundaries" |}.

(** ** Facts about Numbers *)

Module NumberFacts.

Import Number.

Lemma digits2_pos_size p : digits2_pos p = Pos.size p.
Proof. induction p; simpl; congruence. Qed.

Lemma digits2_pos_bound p n :
  0 <= n -> Zpos p < 2 ^ n -> Zpos (digits2_pos p) <= n.
Proof.
  intros Hn Hp. rewrite digits2_pos_size.
  pose proof (Pos.size_le p) as Hle.
  apply Pos2Z.pos_le_pos in Hle. rewrite Pos2Z.inj_pow in Hle.
  change (Zpos p~0) with (2 * Zpos p) in Hle.
  assert (Hlt : 2 ^ Zpos (Pos.size p) < 2 ^ (n + 1)).
  { rewrite Z.pow_add_r, Z.pow_1_r by lia. lia. }
  apply Z.pow_lt_mono_r_iff in Hlt; lia.
Qed.

Lemma iter_xO_value p k : Zpos (Pos.iter xO p k) = Zpos p * 2 ^ Zpos k.
Proof.
  induction k as [|k IH] using Pos.peano_ind.
  - simpl. lia.
  - rewrite Pos.iter_succ, Pos2Z.inj_succ, Z.pow_succ_r by lia.
    change (Zpos (Pos.iter xO p k)~0) with (2 * Zpos (Pos.iter xO p k)).
    rewrite IH. ring.
Qed.

Lemma iter_xO_digits p k :
  Zpos (digits2_pos (Pos.iter xO p k)) = Zpos (digits2_pos p) + Zpos k.
Proof.
  induction k as [|k IH] using Pos.peano_ind.
  - simpl. lia.
  - rewrite Pos.iter_succ. simpl digits2_pos. lia.
Qed.

(** A 53-bit mantissa with an exponent in range needs no rounding. *)
Lemma shr_fexp_exact m e :
  Zpos (digits2_pos m) = 53 -> -1074 <= e ->
  shr_fexp prec emax (Zpos m) e loc_Exact
  = ({| shr_m := Zpos m; shr_r := false; shr_s := false |}, e).
Proof.
  intros Hd He. unfold shr_fexp, fexp, emin, prec, emax.
  change (Zdigits2 (Zpos m)) with (Zpos (digits2_pos m)). rewrite Hd.
  replace (Z.max (53 + e - 53) (3 - 1024 - 53) - e) with 0 by lia.
  reflexivity.
Qed.

Lemma binary_round_aux_exact s m e :
  Zpos (digits2_pos m) = 53 -> -1074 <= e <= 971 ->
  binary_round_aux prec emax s (Zpos m) e loc_Exact = S754_finite s m e.
Proof.
  intros Hd He. unfold binary_round_aux.
  rewrite (shr_fexp_exact m e Hd) by lia.
  cbn [shr_m loc_of_shr_record round_nearest_even].
  rewrite (shr_fexp_exact m e Hd) by lia.
  cbn [shr_m]. unfold prec, emax.
  destruct (Z.leb_spec e (1024 - 53)); [reflexivity | lia].
Qed.

(** The Number of a non-zero integer below 2^53 in magnitude: a 53-bit
    mantissa, a non-positive exponent and exactly the value of the
    integer. *)
Lemma ofZ_finite z :
  z <> 0 -> Z.abs z < 2 ^ 53 ->
  exists m e,
    ofZ z = S754_finite (z <? 0) m e /\ -52 <= e <= 0 /\
    Zpos m = Z.abs z * 2 ^ (- e) /\ Zpos (digits2_pos m) = 53.
Proof.
  intros Hz Hb.
  assert (Hpos : forall s p, Zpos p < 2 ^ 53 ->
            exists m e,
              binary_round prec emax s p 0 = S754_finite s m e /\
              -52 <= e <= 0 /\ Zpos m = Zpos p * 2 ^ (- e) /\
              Zpos (digits2_pos m) = 53).
  { intros s p Hp.
    pose proof (digits2_pos_bound p 53 ltac:(lia) Hp) as Hd.
    unfold binary_round, shl_align, fexp, emin, prec, emax.
    replace (Z.max (Zpos (digits2_pos p) + 0 - 53) (3 - 1024 - 53) - 0)
      with (Zpos (digits2_pos p) - 53) by lia.
    replace (Z.max (Zpos (digits2_pos p) + 0 - 53) (3 - 1024 - 53))
      with (Zpos (digits2_pos p) - 53) by lia.
    destruct (Zpos (digits2_pos p) - 53) as [|k|k] eqn:Hk; try lia.
    - exists p, 0. split; [|split; [lia|split; [simpl; lia | lia]]].
      apply (binary_round_aux_exact s p 0); lia.
    - exists (Pos.iter xO p k), (Zneg k).
      pose proof (iter_xO_digits p k) as Hdig.
      split; [|split; [lia|split; [|lia]]].
      + apply (binary_round_aux_exact s (Pos.iter xO p k) (Zneg k)); lia.
      + rewrite iter_xO_value. reflexivity. }
  destruct z as [|p|p]; [congruence| |].
  - destruct (Hpos false p Hb) as (m & e & H1 & H2 & H3 & H4).
    exists m, e. auto.
  - destruct (Hpos true p Hb) as (m & e & H1 & H2 & H3 & H4).
    exists m, e. auto.
Qed.

Lemma truncate_ofZ z : Z.abs z < 2 ^ 53 -> truncate (ofZ z) = z.
Proof.
  intros Hb. destruct (Z.eq_dec z 0) as [->|Hz]; [reflexivity|].
  destruct (ofZ_finite z Hz Hb) as (m & e & -> & He & Hm & _).
  unfold truncate. rewrite Hm.
  assert (Hq : (if 0 <=? e then Z.abs z * 2 ^ (- e) * 2 ^ e
                else Z.abs z * 2 ^ (- e) / 2 ^ (- e)) = Z.abs z).
  { destruct (Z.leb_spec 0 e).
    - replace e with 0 by lia. simpl. lia.
    - apply Z.div_mul. apply Z.pow_nonzero; lia. }
  rewrite Hq. destruct (Z.ltb_spec z 0); lia.
Qed.

Lemma intValue_ofZ z : Z.abs z < 2 ^ 53 -> intValue (ofZ z) = Some z.
Proof.
  intros Hb. pose proof (truncate_ofZ z Hb) as Ht.
  destruct (Z.eq_dec z 0) as [->|Hz]; [reflexivity|].
  destruct (ofZ_finite z Hz Hb) as (m & e & Heq & He & Hm & _).
  rewrite Heq in *. unfold intValue. rewrite Ht.
  destruct (0 <=? e); [reflexivity|].
  rewrite Hm, Z.mod_mul by (apply Z.pow_nonzero; lia). reflexivity.
Qed.

Lemma lt_zero_ofZ z : Z.abs z < 2 ^ 53 -> lt (ofZ z) zero = (z <? 0).
Proof.
  intros Hb. destruct (Z.eq_dec z 0) as [->|Hz]; [reflexivity|].
  destruct (ofZ_finite z Hz Hb) as (m & e & -> & _).
  unfold lt, SFltb. simpl. destruct (z <? 0); reflexivity.
Qed.

End NumberFacts.

(** ** Facts about the encoder *)

Section EncoderFacts.

Lemma land_0x1f_range num : 0 <= Z.land num 0x1f < 32.
Proof.
  change 0x1f with (Z.ones 5). rewrite Z.land_ones by lia.
  apply Z.mod_pos_bound. lia.
Qed.

Lemma lor_0x20 x : 0 <= x < 32 -> Z.lor 0x20 x = 32 + x.
Proof.
  intros Hx. destruct x as [|p|p]; [reflexivity| |lia].
  do 5 (destruct p as [p|p|]; try reflexivity); lia.
Qed.

Lemma encodeNumber_nonempty num : (1 <= length (encodeNumber num))%nat.
Proof.
  funelim (encodeNumber num).
  - rewrite length_app. simpl. lia.
  - simpl. lia.
Qed.

Lemma encodeNumber_chunk num : 0 <= num -> wellFormedChunk (encodeNumber num).
Proof.
  funelim (encodeNumber num); intros Hnum.
  - pose proof (proj1 (Z.leb_le _ _) more) as Hmore.
    destruct H as (continuation & final & Heq & Hc & Hf).
    { apply Z.shiftr_nonneg. lia. }
    exists ((32 + Z.land num 0x1f + 63) :: continuation), final.
    pose proof (land_0x1f_range num) as Hl.
    split; [|split; [constructor; [lia | assumption] | assumption]].
    rewrite Heq. unfold fromCharCode. rewrite lor_0x20 by assumption.
    rewrite Z.mod_small by lia. reflexivity.
  - pose proof (proj1 (Z.leb_gt _ _) done) as Hdone.
    exists [], (num + 63). split; [|split; [constructor | lia]].
    unfold fromCharCode. rewrite Z.mod_small by lia. reflexivity.
Qed.

Lemma wellFormedChunk_range chunk :
  wellFormedChunk chunk -> Forall (fun c => 63 <= c <= 126) chunk.
Proof.
  intros (continuation & final & -> & Hc & Hf).
  apply Forall_app. split.
  - eapply Forall_impl; [|exact Hc]. simpl. lia.
  - constructor; [lia | constructor].
Qed.

Lemma wrap32_small z : - 2 ^ 31 <= z < 2 ^ 31 -> Number.wrap32 z = z.
Proof.
  intros Hz. unfold Number.wrap32.
  destruct (Z.ltb_spec z 0).
  - replace (z mod 2 ^ 32) with (z + 2 ^ 32).
    + destruct (Z.leb_spec (2 ^ 31) (z + 2 ^ 32)); lia.
    + apply Z.mod_unique with (q := -1); lia.
  - rewrite Z.mod_small by lia.
    destruct (Z.leb_spec (2 ^ 31) z); lia.
Qed.

Lemma intValue_truncate d z :
  Number.intValue d = Some z -> Number.truncate d = z.
Proof.
  destruct d as [s|s| |s m e]; unfold Number.intValue; try discriminate.
  - now intros [= <-].
  - destruct (0 <=? e); [now intros [= <-]|].
    destruct (_ =? 0); [now intros [= <-] | discriminate].
Qed.

Lemma intValue_sign d z :
  Number.intValue d = Some z -> Number.lt d Number.zero = (z <? 0).
Proof.
  destruct d as [s|s| |s m e];
    unfold Number.intValue, Number.truncate, Number.lt, SFltb, SFcompare,
      Number.zero; try discriminate.
  - now intros [= <-].
  - assert (Hpos : forall a, 0 < a ->
              match (if s then Lt else Gt) with Lt => true | _ => false end
              = ((if s then - a else a) <? 0)).
    { intros a Ha. destruct s; [destruct (Z.ltb_spec (- a) 0)
                               | destruct (Z.ltb_spec a 0)]; lia. }
    destruct (Z.leb_spec 0 e) as [He|He].
    + intros [= <-]. apply (Hpos (Zpos m * 2 ^ e)).
      apply Z.mul_pos_pos; [lia | apply Z.pow_pos_nonneg; lia].
    + destruct (Z.eqb_spec (Zpos m mod 2 ^ (- e)) 0) as [Hm|Hm];
        [|discriminate].
      intros [= <-]. apply (Hpos (Zpos m / 2 ^ (- e))).
      assert (Hp : 0 < 2 ^ (- e)) by (apply Z.pow_pos_nonneg; lia).
      pose proof (Z.div_mod (Zpos m) (2 ^ (- e)) ltac:(lia)) as Hdm.
      rewrite Hm in Hdm. nia.
Qed.

(** The zig-zag value of a delta that fits. *)
Lemma signedNumberBits_fits d z :
  Number.intValue d = Some z -> - 2 ^ 30 <= z < 2 ^ 30 ->
  signedNumberBits d = if z <? 0 then - 2 * z - 1 else 2 * z.
Proof.
  intros Hd Hz. unfold signedNumberBits, Number.ToInt32.
  rewrite (intValue_truncate d z Hd), (intValue_sign d z Hd).
  rewrite (wrap32_small z) by lia.
  rewrite Z.shiftl_mul_pow2 by lia.
  rewrite wrap32_small by lia.
  unfold Z.lnot. destruct (z <? 0); lia.
Qed.

Lemma zigzagDecode_zigzag z :
  zigzagDecode (if z <? 0 then - 2 * z - 1 else 2 * z) = z.
Proof.
  unfold zigzagDecode. rewrite Z.bit0_odd, Z.shiftr_div_pow2 by lia.
  change (2 ^ 1) with 2.
  destruct (Z.ltb_spec z 0).
  - replace (- 2 * z - 1) with (1 + 2 * (- z - 1)) by lia.
    rewrite Z.odd_add_mul_2. simpl Z.odd.
    replace ((1 + 2 * (- z - 1)) / 2) with (- z - 1).
    + unfold Z.lnot. lia.
    + apply Z.div_unique with (r := 1); lia.
  - replace (2 * z) with (0 + 2 * z) by lia.
    rewrite Z.odd_add_mul_2. simpl Z.odd.
    rewrite Z.add_0_l, Z.mul_comm. apply Z.div_mul. lia.
Qed.

Lemma encodeLoop_deltas points :
  forall result prevLat prevLng,
    encodeLoop points result prevLat prevLng
    = result ++ concat (map encodeSignedNumber
                          (deltasLoop points prevLat prevLng)).
Proof.
  induction points as [|p rest IH]; intros result prevLat prevLng; simpl.
  - now rewrite app_nil_r.
  - rewrite IH, <- !app_assoc. reflexivity.
Qed.

Lemma encodeLoop_length points :
  forall result prevLat prevLng,
    (length result + 2 * length points
     <= length (encodeLoop points result prevLat prevLng))%nat.
Proof.
  induction points as [|p rest IH]; intros result prevLat prevLng; simpl.
  - lia.
  - eapply Nat.le_trans; [|apply IH]. rewrite !length_app.
    pose proof (encodeNumber_nonempty
                  (signedNumberBits
                     (Number.sub (Number.Math_round (Number.mul (fst p) scale))
                        prevLat))).
    pose proof (encodeNumber_nonempty
                  (signedNumberBits
                     (Number.sub (Number.Math_round (Number.mul (snd p) scale))
                        prevLng))).
    unfold encodeSignedNumber. lia.
Qed.

End EncoderFacts.

(** ** The encoder: claims *)

(** Closed statements about concrete inputs are settled by running the
    embedding. *)
Ltac by_evaluation := vm_compute; repeat split; reflexivity.

Example encodeNumber_1100599 : encodeNumber 1100599 = codeUnits "vxq`@".
Proof. by_evaluation. Qed.

Example encodeSignedNumber_minus_550300 :
  encodeSignedNumber (Number.ofZ (-550300)) = codeUnits "vxq`@".
Proof. by_evaluation. Qed.

Example encodePolyline_empty : encodePolyline [] = [].
Proof. reflexivity. Qed.

(** C2 (as stated): the encoding of the reference path is not the string
    ending in [`U] that the specification quotes. *)
Lemma encodePolyline_google_not_U :
  encodePolyline googleExample <> codeUnits "_p~iF~ps|U_ulLnnqC_mqNvxq`U".
Proof. vm_compute. discriminate. Qed.

(** C2 (amended): [encodePolyline] applied to the path
    [[38.5,-120.2],[40.7,-120.95],[43.252,-126.453]] returns exactly the
    string [_p~iF~ps|U_ulLnnqC_mqNvxq`@]. *)
Theorem encodePolyline_google :
  encodePolyline googleExample = codeUnits "_p~iF~ps|U_ulLnnqC_mqNvxq`@".
Proof. vm_compute. reflexivity. Qed.

(** C5: for every integer delta [d] with [-1000000 <= d <= 1000000], the
    bit pattern that [encodeSignedNumber] hands to [encodeNumber] is [d]
    shifted left by one bit, and complemented when [d] is negative; it is a
    non-negative number, at most 2000000, and so a value the decoder can
    assemble from a chunk; and its zig-zag decoding is [d]. *)
Theorem zigzag_roundtrip d :
  -1000000 <= d <= 1000000 ->
  signedNumberBits (Number.ofZ d)
  = (if d <? 0 then Z.lnot (Z.shiftl d 1) else Z.shiftl d 1) /\
  0 <= signedNumberBits (Number.ofZ d) <= 2000000 /\
  zigzagDecode (signedNumberBits (Number.ofZ d)) = d.
Proof.
  intros Hd.
  rewrite (signedNumberBits_fits (Number.ofZ d) d);
    [| apply NumberFacts.intValue_ofZ; lia | lia].
  split; [|split].
  - rewrite Z.shiftl_mul_pow2 by lia. unfold Z.lnot.
    destruct (d <? 0); lia.
  - destruct (Z.ltb_spec d 0); lia.
  - apply zigzagDecode_zigzag.
Qed.

Lemma zigzag_roundtrip_witness :
  -1000000 <= -1000000 <= 1000000 /\
  (signedNumberBits (Number.ofZ (-1000000))
   = (if -1000000 <? 0 then Z.lnot (Z.shiftl (-1000000) 1)
      else Z.shiftl (-1000000) 1) /\
   0 <= signedNumberBits (Number.ofZ (-1000000)) <= 2000000 /\
   zigzagDecode (signedNumberBits (Number.ofZ (-1000000))) = -1000000).
Proof. split; [lia | apply (zigzag_roundtrip (-1000000)); lia]. Defined.

(** C7 (as stated): a finite path one of whose characters has a code
    outside [63, 126]: [[10737.41924, 0]] is encoded as the code units
    263 and 63. *)
Lemma encodePolyline_charset_counterexample :
  forallb finitePoint [(Number.decimal 1073741924 5, Number.zero)] = true /\
  encodePolyline [(Number.decimal 1073741924 5, Number.zero)] = [263; 63] /\
  ~ Forall (fun c => 63 <= c <= 126)
      (encodePolyline [(Number.decimal 1073741924 5, Number.zero)]).
Proof.
  assert (E : encodePolyline [(Number.decimal 1073741924 5, Number.zero)]
              = [263; 63]) by by_evaluation.
  split; [reflexivity | split; [exact E|]].
  rewrite E. intros H. inversion H; subst. lia.
Qed.

(** C7 (amended): for every path whose deltas are integers [d] with
    [-2^30 <= d < 2^30], the string returned by [encodePolyline] is the
    concatenation of one chunk per delta, every chunk is made of
    continuation characters in [95, 126] followed by one final character in
    [63, 94], and so every character code lies in [63, 126]. *)
Theorem encodePolyline_charset points :
  forallb deltaFits (deltas points) = true ->
  encodePolyline points = concat (map encodeSignedNumber (deltas points)) /\
  Forall wellFormedChunk (map encodeSignedNumber (deltas points)) /\
  Forall (fun c => 63 <= c <= 126) (encodePolyline points).
Proof.
  intros Hfit.
  assert (Heq : encodePolyline points
                = concat (map encodeSignedNumber (deltas points))).
  { unfold encodePolyline. now rewrite encodeLoop_deltas. }
  assert (Hchunks : Forall wellFormedChunk
                      (map encodeSignedNumber (deltas points))).
  { apply Forall_map. rewrite forallb_forall in Hfit.
    apply Forall_forall. intros d Hd. specialize (Hfit d Hd).
    unfold deltaFits in Hfit.
    destruct (Number.intValue d) as [z|] eqn:Hz; [|discriminate].
    apply andb_prop in Hfit. destruct Hfit as [Hlo Hhi].
    apply Z.leb_le in Hlo. apply Z.ltb_lt in Hhi.
    unfold encodeSignedNumber. apply encodeNumber_chunk.
    rewrite (signedNumberBits_fits d z Hz) by lia.
    destruct (Z.ltb_spec z 0); lia. }
  split; [exact Heq | split; [exact Hchunks|]].
  rewrite Heq. apply Forall_concat.
  eapply Forall_impl; [|exact Hchunks].
  intros chunk. apply wellFormedChunk_range.
Qed.

Lemma encodePolyline_charset_witness :
  forallb deltaFits (deltas googleExample) = true /\
  (encodePolyline googleExample
   = concat (map encodeSignedNumber (deltas googleExample)) /\
   Forall wellFormedChunk (map encodeSignedNumber (deltas googleExample)) /\
   Forall (fun c => 63 <= c <= 126) (encodePolyline googleExample)).
Proof.
  split; [vm_compute; reflexivity|].
  apply (encodePolyline_charset googleExample). vm_compute. reflexivity.
Defined.

(** C10: the string returned by [encodePolyline] has at least two
    characters per input point, and it is empty exactly when the path is
    empty. *)
Theorem encodePolyline_length points :
  (2 * length points <= length (encodePolyline points))%nat /\
  (encodePolyline points = [] <-> points = []).
Proof.
  pose proof (encodeLoop_length points [] Number.zero Number.zero) as Hlen.
  fold (encodePolyline points) in Hlen. simpl in Hlen.
  split; [lia|]. split.
  - intros Hnil. rewrite Hnil in Hlen. destruct points; [reflexivity|].
    simpl in Hlen. lia.
  - intros ->. reflexivity.
Qed.









(** ** Facts about the simplifier *)

Section SimplifierFacts.

Variable points : list point.
Variable sqTolerance : number.

Lemma reduceLoop_filter count :
  forall i reducedPoints,
    reduceLoop points sqTolerance i count reducedPoints
    = reducedPoints
        ++ map (at_ points)
             (filter (farFromPredecessor points sqTolerance) (seq i count)).
Proof.
  induction count as [|count IH]; intros i reducedPoints; simpl.
  - now rewrite app_nil_r.
  - rewrite IH. unfold farFromPredecessor at 2.
    destruct (Number.gt _ sqTolerance); simpl.
    + now rewrite <- app_assoc.
    + reflexivity.
Qed.

Lemma vertexReduction_indices :
  vertexReduction points sqTolerance
  = map (at_ points)
      (0%nat :: filter (farFromPredecessor points sqTolerance)
                  (seq 1 (length points - 2))
        ++ [(length points - 1)%nat]).
Proof.
  unfold vertexReduction. rewrite reduceLoop_filter.
  replace (length points - 1 - 1)%nat with (length points - 2)%nat by lia.
  simpl. now rewrite map_app.
Qed.

End SimplifierFacts.

(** ** The simplifier: claims *)

(** The unit square with tolerance 0.0001 keeps its five points. *)
Example simplifyPath_unit_square :
  simplifyPath [pt 0 0; pt 0 1; pt 1 1; pt 1 0; pt 0 0] (Number.decimal 1 4)
  = [pt 0 0; pt 0 1; pt 1 1; pt 1 0; pt 0 0].
Proof. by_evaluation. Qed.

(** [[0,0],[0,0.00001],[0,1]] with tolerance 0.001 loses its middle
    point. *)
Example simplifyPath_near_straight :
  simplifyPath [pt 0 0; (Number.zero, Number.decimal 1 5); pt 0 1]
    (Number.decimal 1 3)
  = [pt 0 0; pt 0 1].
Proof. by_evaluation. Qed.

(** On [[0,0],[1,0],[2,0],[3,0]] with tolerance 1.5 the point [2,0] lies
    at squared distance 4 > 2.25 from the previously kept point [0,0], and
    keeping every such point would give three points; stage 1 drops it,
    because it compares [2,0] with its predecessor [1,0]. *)
Lemma vertexReduction_prevKept_counterexample :
  let sqTolerance := Number.mul (Number.decimal 15 1) (Number.decimal 15 1) in
  vertexReduction straightPath sqTolerance = [pt 0 0; pt 3 0] /\
  Number.gt (getSqDist (pt 2 0) (pt 0 0)) sqTolerance = true /\
  vertexReductionPrevKept straightPath sqTolerance
  = [pt 0 0; pt 2 0; pt 3 0].
Proof. by_evaluation. Qed.

(** What the loop of lines 181-185 computes, for every path of more than
    two points and every tolerance: the interior point at index [i] goes
    through exactly when its squared distance to its predecessor
    [points[i - 1]] in the input exceeds the squared tolerance, whether or
    not that predecessor went through. *)
Lemma vertexReduction_keeps points tolerance :
  (2 < length points)%nat ->
  let sqTolerance := Number.mul tolerance tolerance in
  vertexReduction points sqTolerance
  = at_ points 0
      :: map (at_ points)
           (filter (fun i =>
                      Number.gt (getSqDist (at_ points i) (at_ points (i - 1)))
                        sqTolerance)
              (seq 1 (length points - 2)))
      ++ [at_ points (length points - 1)] /\
  simplifyPath points tolerance
  = douglasPeucker (vertexReduction points sqTolerance) sqTolerance.
Proof.
  intros Hlen sqTolerance. split.
  - rewrite vertexReduction_indices. simpl. now rewrite map_app.
  - unfold simplifyPath.
    destruct (Nat.leb_spec (length points) 2); [lia | reflexivity].
Qed.

(** C1 (defect of the code): stage 1 does not reduce vertices by the
    tolerance.  Line 182 measures every interior point from its predecessor
    [points[i - 1]] in the input, not from the previously kept point, so a
    path whose consecutive points are within the tolerance of each other
    loses every interior point, however far the path travels.  On the
    closed ring [ringPath], whose consecutive positions are 1 apart, with
    tolerance 2: stage 1 returns the two end points, [simplifyPath] returns
    the two identical points [[0,0],[0,0]] and the ring is encoded as
    [????], although the corner [3,3] lies at squared distance 18 > 4 from
    them.  Measuring from the previously kept point keeps the three corners
    in stage 1, and stage 2 keeps them. *)
Theorem vertexReduction_collapses_ring :
  let tolerance := Number.ofZ 2 in
  let sqTolerance := Number.mul tolerance tolerance in
  Forall (fun i =>
            Number.gt (getSqDist (at_ ringPath i) (at_ ringPath (i - 1)))
              sqTolerance = false)
    (seq 1 11) /\
  vertexReduction ringPath sqTolerance = [pt 0 0; pt 0 0] /\
  simplifyPath ringPath tolerance = [pt 0 0; pt 0 0] /\
  encodePolyline (simplifyPath ringPath tolerance) = codeUnits "????" /\
  getSqSegDist (pt 3 3) (pt 0 0) (pt 0 0) = Number.ofZ 18 /\
  Number.gt (getSqSegDist (pt 3 3) (pt 0 0) (pt 0 0)) sqTolerance = true /\
  vertexReductionPrevKept ringPath sqTolerance
  = [pt 0 0; pt 3 0; pt 3 3; pt 0 3; pt 0 0] /\
  douglasPeucker (vertexReductionPrevKept ringPath sqTolerance) sqTolerance
  = [pt 0 0; pt 3 0; pt 3 3; pt 0 3; pt 0 0].
Proof.
  assert (Hsteps : forallb
            (fun i =>
               negb (Number.gt (getSqDist (at_ ringPath i)
                                  (at_ ringPath (i - 1)))
                       (Number.mul (Number.ofZ 2) (Number.ofZ 2))))
            (seq 1 11) = true) by (vm_compute; reflexivity).
  cbv zeta. split; [|by_evaluation].
  apply Forall_forall. intros i Hi.
  rewrite forallb_forall in Hsteps. specialize (Hsteps i Hi).
  now apply negb_true_iff in Hsteps.
Qed.

(** The same at the scale of the component: a boundary with one position
    every 0.0005 degrees around a square of side 0.0015, simplified with the
    tolerance 0.001 of line 85, is drawn as the single position [[0,0]]
    twice. *)
Example encodedBoundary_dense_ring :
  simplifyPath (map toLatLng denseRing) (Number.decimal 1 3)
  = [(Number.decimal 0 4, Number.decimal 0 4);
     (Number.decimal 0 4, Number.decimal 0 4)] /\
  encodedBoundary denseRing = codeUnits "????" /\
  Number.gt
    (getSqDist (Number.decimal 15 4, Number.decimal 15 4)
       (Number.decimal 0 4, Number.decimal 0 4))
    (Number.mul (Number.decimal 1 3) (Number.decimal 1 3)) = true.
Proof. by_evaluation. Qed.

(** C8: for every path of at most two points (the empty path included)
    and every tolerance, [simplifyPath] returns the path unchanged. *)
Theorem simplifyPath_short points tolerance :
  (length points <= 2)%nat -> simplifyPath points tolerance = points.
Proof.
  intros Hlen. unfold simplifyPath.
  destruct (Nat.leb_spec (length points) 2); [reflexivity | lia].
Qed.

Lemma simplifyPath_short_witness :
  ((length (@nil point) <= 2)%nat /\
   simplifyPath [] (Number.ofZ 1) = []) /\
  ((length [pt 0 0; pt 0 1] <= 2)%nat /\
   simplifyPath [pt 0 0; pt 0 1] (Number.ofZ 1) = [pt 0 0; pt 0 1]).
Proof.
  split; split; try (simpl; lia).
  - apply (simplifyPath_short [] (Number.ofZ 1)). simpl. lia.
  - apply (simplifyPath_short [pt 0 0; pt 0 1] (Number.ofZ 1)). simpl. lia.
Defined.

(** ** Index lists *)

Section Indices.

Lemma ascending_Forall indices :
  forall lo hi,
    ascending lo hi indices ->
    Forall (fun i => (lo <= i < hi)%nat) indices.
Proof.
  induction indices as [|i rest IH]; intros lo hi; simpl.
  - constructor.
  - intros [Hi Hrest]. constructor; [exact Hi|].
    eapply Forall_impl; [|apply (IH _ _ Hrest)]. simpl. lia.
Qed.

Lemma ascending_weaken indices :
  forall lo hi lo' hi',
    (lo' <= lo)%nat -> (hi <= hi')%nat ->
    ascending lo hi indices -> ascending lo' hi' indices.
Proof.
  induction indices as [|i rest IH]; intros lo hi lo' hi' Hlo Hhi; simpl.
  - trivial.
  - intros [Hi Hrest]. split; [lia|].
    apply (IH (S i) hi); [lia | lia | exact Hrest].
Qed.

Lemma ascending_app front :
  forall lo mid hi back,
    (lo <= mid <= hi)%nat ->
    ascending lo mid front -> ascending mid hi back ->
    ascending lo hi (front ++ back).
Proof.
  induction front as [|i rest IH]; intros lo mid hi back Hmid; simpl.
  - intros _ Hback.
    apply (ascending_weaken back mid hi); [lia | lia | exact Hback].
  - intros [Hi Hrest] Hback. split; [lia|].
    apply (IH (S i) mid); [lia | exact Hrest | exact Hback].
Qed.

Lemma ascending_filter_seq (keep : nat -> bool) count :
  forall i, ascending i (i + count) (filter keep (seq i count)).
Proof.
  induction count as [|count IH]; intros i; simpl; [trivial|].
  specialize (IH (S i)).
  destruct (keep i); simpl.
  - split; [lia|]. replace (i + S count)%nat with (S i + count)%nat by lia.
    exact IH.
  - apply (ascending_weaken _ (S i) (S i + count)); [lia | lia | exact IH].
Qed.

Lemma ascending_seq count :
  forall i, ascending i (i + count) (seq i count).
Proof.
  induction count as [|count IH]; intros i; simpl; [trivial|].
  split; [lia|]. replace (i + S count)%nat with (S i + count)%nat by lia.
  apply IH.
Qed.

Lemma ascending_sorted indices :
  forall lo hi, ascending lo hi indices -> StronglySorted Nat.lt indices.
Proof.
  induction indices as [|i rest IH]; intros lo hi; simpl.
  - constructor.
  - intros [Hi Hrest]. constructor; [apply (IH _ _ Hrest)|].
    eapply Forall_impl; [|apply (ascending_Forall _ _ _ Hrest)].
    simpl. unfold Nat.lt. lia.
Qed.

Lemma sorted_nth_lt indices :
  StronglySorted Nat.lt indices ->
  forall i j, (i < j < length indices)%nat ->
    (nth i indices 0 < nth j indices 0)%nat.
Proof.
  induction 1 as [|a rest Hsorted IH Hall]; intros i j Hij; simpl in *.
  - lia.
  - destruct j as [|j]; [lia|]. destruct i as [|i].
    + apply (proj1 (Forall_nth _ _) Hall). lia.
    + apply IH. lia.
Qed.

End Indices.

Section Subsequences.

Lemma at_seq (l : list point) : map (at_ l) (seq 0 (length l)) = l.
Proof.
  apply nth_ext with (d := at_ l (length l)) (d' := (S754_nan, S754_nan)).
  - now rewrite length_map, length_seq.
  - intros n Hn. rewrite length_map, length_seq in Hn.
    rewrite (map_nth (at_ l) (seq 0 (length l)) (length l) n).
    rewrite seq_nth by lia. reflexivity.
Qed.

Lemma subsequenceOf_refl l : subsequenceOf l l.
Proof.
  exists (seq 0 (length l)). split; [now rewrite at_seq|]. split.
  - apply (ascending_sorted _ 0 (0 + length l)). apply ascending_seq.
  - apply Forall_forall. intros i Hi. apply in_seq in Hi. lia.
Qed.

Lemma subsequenceOf_trans a b c :
  subsequenceOf a b -> subsequenceOf b c -> subsequenceOf a c.
Proof.
  intros (ks & -> & Hks & Hkb) (js & -> & Hjs & Hjc).
  rewrite length_map in Hkb.
  exists (map (fun i => nth i js 0%nat) ks). split; [|split].
  - rewrite map_map. apply map_ext_in. intros i Hi.
    rewrite Forall_forall in Hkb. specialize (Hkb i Hi).
    unfold at_ at 1.
    rewrite nth_indep with (d' := at_ c 0%nat)
      by (rewrite length_map; exact Hkb).
    now rewrite (map_nth (at_ c)).
  - clear Hjc. induction Hks as [|i rest Hsorted IH Hall]; simpl.
    + constructor.
    + inversion Hkb as [|? ? Hi Hrest]; subst.
      constructor; [apply IH; exact Hrest|].
      apply Forall_map. rewrite Forall_forall in *.
      intros j Hj. apply (sorted_nth_lt js Hjs).
      specialize (Hall j Hj). specialize (Hrest j Hj).
      unfold Nat.lt in Hall. lia.
  - apply Forall_map. rewrite Forall_forall in *. intros i Hi.
    apply Hjc. apply nth_In. apply Hkb. exact Hi.
Qed.

End Subsequences.

(** ** Stage 2 keeps points in order *)

Section DouglasPeuckerFacts.

Lemma farthestLoop_range points first last count :
  forall i index maxSqDist k,
    fst (farthestLoop points first last i count index maxSqDist) = Some k ->
    index = Some k \/ (i <= k < i + count)%nat.
Proof.
  induction count as [|count IH]; intros i index maxSqDist k; simpl.
  - intros ->. now left.
  - destruct (Number.gt _ maxSqDist); intros H; apply IH in H.
    + destruct H as [H|H]; [injection H as <-|]; right; lia.
    + destruct H as [H|H]; [now left | right; lia].
Qed.

Lemma farthest_range points first last sqTolerance k :
  farthest points first last sqTolerance = Some k ->
  (first < k < last)%nat.
Proof.
  unfold farthest. intros H.
  apply farthestLoop_range in H. destruct H as [H|H]; [discriminate | lia].
Qed.

(** The body of [simplifyDPStep], with the result of the loop named. *)
Lemma simplifyDPStep_body points first last sqTolerance simplified :
  simplifyDPStep points first last sqTolerance simplified
  = match farthest points first last sqTolerance with
    | None => simplified
    | Some index =>
        let simplified1 :=
          if (1 <? index - first)%nat
          then simplifyDPStep points first index sqTolerance simplified
          else simplified in
        let simplified2 := simplified1 ++ [at_ points index] in
        if (1 <? last - index)%nat
        then simplifyDPStep points index last sqTolerance simplified2
        else simplified2
    end.
Proof.
  funelim (simplifyDPStep points first last sqTolerance simplified).
  - rewrite found. reflexivity.
  - rewrite e. reflexivity.
Qed.

Lemma simplifyDPStep_indices points first last sqTolerance simplified :
  exists indices,
    simplifyDPStep points first last sqTolerance simplified
    = simplified ++ map (at_ points) indices /\
    ascending (S first) last indices.
Proof.
  funelim (simplifyDPStep points first last sqTolerance simplified).
  - pose proof (farthest_range _ _ _ _ _ found) as Hrange.
    destruct H as (front & Hfront & Hasc1).
    destruct H0 as (back & Hback & Hasc2).
    set (front' := if (1 <? index - first)%nat then front else []).
    set (back' := if (1 <? last - index)%nat then back else []).
    exists (front' ++ index :: back'). split.
    + rewrite map_app. simpl.
      subst front' back'.
      destruct (1 <? last - index)%nat.
      * rewrite Hback.
        destruct (1 <? index - first)%nat;
          [rewrite Hfront|]; simpl; rewrite <- ?app_assoc; reflexivity.
      * destruct (1 <? index - first)%nat;
          [rewrite Hfront|]; simpl; rewrite <- ?app_assoc; reflexivity.
    + apply (ascending_app front' (S first) index last); [lia | |].
      * subst front'. destruct (1 <? index - first)%nat; simpl; trivial.
      * simpl. split; [lia|].
        subst back'. destruct (1 <? last - index)%nat; simpl; trivial.
  - exists []. simpl. now rewrite app_nil_r.
Qed.

Lemma douglasPeucker_subsequence reducedPoints sqTolerance :
  (2 <= length reducedPoints)%nat ->
  subsequenceOf (douglasPeucker reducedPoints sqTolerance) reducedPoints.
Proof.
  intros Hlen. unfold douglasPeucker.
  destruct (simplifyDPStep_indices reducedPoints 0 (length reducedPoints - 1)
              sqTolerance [at_ reducedPoints 0]) as (indices & -> & Hasc).
  assert (Hall : ascending 0 (length reducedPoints)
                   ((0%nat :: indices) ++ [(length reducedPoints - 1)%nat])).
  { apply (ascending_app _ 0 (length reducedPoints - 1)); [lia | |].
    - simpl. split; [lia | exact Hasc].
    - simpl. split; [lia | trivial]. }
  exists ((0%nat :: indices) ++ [(length reducedPoints - 1)%nat]).
  split; [|split].
  - rewrite map_app. reflexivity.
  - apply (ascending_sorted _ _ _ Hall).
  - eapply Forall_impl; [|apply (ascending_Forall _ _ _ Hall)]. simpl. lia.
Qed.

Lemma vertexReduction_subsequence points sqTolerance :
  (2 <= length points)%nat ->
  subsequenceOf (vertexReduction points sqTolerance) points.
Proof.
  intros Hlen. rewrite vertexReduction_indices.
  set (kept := filter (farFromPredecessor points sqTolerance)
                 (seq 1 (length points - 2))).
  assert (Hall : ascending 0 (length points)
                   ((0%nat :: kept) ++ [(length points - 1)%nat])).
  { apply (ascending_app _ 0 (length points - 1)); [lia | |].
    - simpl. split; [lia|].
      replace (length points - 1)%nat with (1 + (length points - 2))%nat
        by lia.
      apply ascending_filter_seq.
    - simpl. split; [lia | trivial]. }
  exists ((0%nat :: kept) ++ [(length points - 1)%nat]).
  split; [reflexivity | split].
  - apply (ascending_sorted _ _ _ Hall).
  - eapply Forall_impl; [|apply (ascending_Forall _ _ _ Hall)]. simpl. lia.
Qed.

Lemma vertexReduction_length points sqTolerance :
  (2 <= length (vertexReduction points sqTolerance))%nat.
Proof.
  rewrite vertexReduction_indices, length_map. simpl.
  rewrite length_app. simpl. lia.
Qed.

Lemma at_first (l : list point) : l <> [] -> hd_error l = Some (at_ l 0).
Proof. destruct l; [congruence | reflexivity]. Qed.

Lemma at_last (l : list point) d :
  l <> [] -> last l d = at_ l (length l - 1).
Proof.
  induction l as [|x l IH]; [congruence|]. intros _.
  destruct l as [|y l]; [reflexivity|].
  change (last (x :: y :: l) d) with (last (y :: l) d).
  rewrite IH by discriminate. simpl. now rewrite Nat.sub_0_r.
Qed.

Lemma vertexReduction_ends points sqTolerance :
  at_ (vertexReduction points sqTolerance) 0 = at_ points 0 /\
  at_ (vertexReduction points sqTolerance)
    (length (vertexReduction points sqTolerance) - 1)
  = at_ points (length points - 1).
Proof.
  split.
  - rewrite vertexReduction_indices. reflexivity.
  - rewrite <- (at_last _ (S754_nan, S754_nan)).
    + unfold vertexReduction. apply last_last.
    + unfold vertexReduction. now destruct (reduceLoop _ _ _ _ _).
Qed.

Lemma douglasPeucker_ends reducedPoints sqTolerance d :
  hd_error (douglasPeucker reducedPoints sqTolerance)
  = Some (at_ reducedPoints 0) /\
  last (douglasPeucker reducedPoints sqTolerance) d
  = at_ reducedPoints (length reducedPoints - 1).
Proof.
  unfold douglasPeucker.
  destruct (simplifyDPStep_indices reducedPoints 0 (length reducedPoints - 1)
              sqTolerance [at_ reducedPoints 0]) as (indices & -> & _).
  split; [reflexivity | apply last_last].
Qed.

End DouglasPeuckerFacts.

(** C3: for every non-empty path and every tolerance, the output of
    [simplifyPath] lists points of the input at strictly increasing
    positions (an in-order subsequence: nothing reordered, nothing new),
    its first element is the first point of the input and its last element
    is the last point of the input. *)
Theorem simplifyPath_subsequence points tolerance d :
  points <> [] ->
  subsequenceOf (simplifyPath points tolerance) points /\
  hd_error (simplifyPath points tolerance) = hd_error points /\
  last (simplifyPath points tolerance) d = last points d.
Proof.
  intros Hne. unfold simplifyPath.
  destruct (Nat.leb_spec (length points) 2) as [Hshort|Hlong].
  - split; [apply subsequenceOf_refl | split; reflexivity].
  - set (sqTolerance := Number.mul tolerance tolerance).
    pose proof (vertexReduction_length points sqTolerance) as Hlen.
    pose proof (vertexReduction_ends points sqTolerance) as [Hfirst Hlast].
    pose proof (douglasPeucker_ends (vertexReduction points sqTolerance)
                  sqTolerance d) as [Hhd Hend].
    split; [|split].
    + apply subsequenceOf_trans with (vertexReduction points sqTolerance).
      * apply douglasPeucker_subsequence. exact Hlen.
      * apply vertexReduction_subsequence. lia.
    + rewrite Hhd, Hfirst. symmetry. apply at_first. exact Hne.
    + rewrite Hend, Hlast. symmetry. apply at_last. exact Hne.
Qed.

Lemma simplifyPath_subsequence_witness :
  zigzagPath <> [] /\
  (subsequenceOf (simplifyPath zigzagPath (Number.ofZ 1)) zigzagPath /\
   hd_error (simplifyPath zigzagPath (Number.ofZ 1)) = hd_error zigzagPath /\
   last (simplifyPath zigzagPath (Number.ofZ 1)) (pt 0 0)
   = last zigzagPath (pt 0 0)).
Proof.
  split; [discriminate|].
  apply (simplifyPath_subsequence zigzagPath (Number.ofZ 1) (pt 0 0)).
  discriminate.
Defined.

(** ** The order of Numbers *)

Module NumberOrder.

Import Number.

Lemma SFcompare_key a b :
  notNaN a -> notNaN b ->
  (SFcompare a b = Some Lt /\ keyLt a b) \/
  (SFcompare a b = Some Eq /\ keyEq a b) \/
  (SFcompare a b = Some Gt /\ keyLt b a).
Proof.
  unfold notNaN, keyLt, keyEq.
  destruct a as [sa|sa| |sa ma ea], b as [sb|sb| |sb mb eb];
    intros Ha Hb; try congruence;
    try (destruct sa); try (destruct sb); cbn [SFcompare class major minor];
    try (left; split; [reflexivity | lia]);
    try (right; left; split; [reflexivity | lia]);
    try (right; right; split; [reflexivity | lia]).
  all: change (Pos.compare_cont Eq ma mb) with (Pos.compare ma mb).
  all: destruct (Z.compare_spec ea eb); destruct (Pos.compare_spec ma mb);
    cbn [CompOpp];
    try (left; split; [reflexivity | lia]);
    try (right; left; split; [reflexivity | lia]);
    try (right; right; split; [reflexivity | lia]).
Qed.

Lemma gt_spec a b :
  gt a b = true <-> notNaN a /\ notNaN b /\ keyLt b a.
Proof.
  unfold gt, SFltb. split.
  - intros H.
    assert (Ha : notNaN a) by (intros ->; now destruct b).
    assert (Hb : notNaN b) by (intros ->; discriminate).
    destruct (SFcompare_key b a Hb Ha) as [[E K]|[[E K]|[E K]]];
      rewrite E in H; try discriminate. auto.
  - intros (Ha & Hb & K).
    destruct (SFcompare_key b a Hb Ha) as [[E K']|[[E K']|[E K']]];
      rewrite E; [reflexivity | |];
      unfold keyLt, keyEq in *; lia.
Qed.

Lemma le_spec a b :
  le a b = true <-> notNaN a /\ notNaN b /\ (keyLt a b \/ keyEq a b).
Proof.
  unfold le, SFleb. split.
  - intros H.
    assert (Ha : notNaN a) by (intros ->; discriminate).
    assert (Hb : notNaN b) by (intros ->; now destruct a).
    destruct (SFcompare_key a b Ha Hb) as [[E K]|[[E K]|[E K]]];
      rewrite E in H; try discriminate; auto.
  - intros (Ha & Hb & K).
    destruct (SFcompare_key a b Ha Hb) as [[E K']|[[E K']|[E K']]];
      rewrite E; [reflexivity | reflexivity |].
    unfold keyLt, keyEq in *. lia.
Qed.

(** [a <= b] and [c > b] give [c > a]. *)
Lemma le_gt_trans a b c : le a b = true -> gt c b = true -> gt c a = true.
Proof.
  rewrite le_spec, !gt_spec. unfold keyLt, keyEq.
  intros (Ha & Hb & K1) (Hc & _ & K2). split; [|split]; trivial. lia.
Qed.

(** Two Numbers that are not NaN are comparable. *)
Lemma not_gt_le a b :
  notNaN a -> notNaN b -> gt a b = false -> le a b = true.
Proof.
  intros Ha Hb H. apply le_spec. split; [|split]; trivial.
  destruct (SFcompare_key b a Hb Ha) as [[E K]|[[E K]|[E K]]].
  - unfold gt, SFltb in H. rewrite E in H. discriminate.
  - right. unfold keyEq in *. lia.
  - now left.
Qed.

Lemma gt_notNaN a b : gt a b = true -> notNaN a /\ notNaN b.
Proof. rewrite gt_spec. tauto. Qed.

Lemma le_notNaN a b : le a b = true -> notNaN a /\ notNaN b.
Proof. rewrite le_spec. tauto. Qed.

End NumberOrder.

(** ** Stage 2 and the tolerance *)

Section ToleranceFacts.

Variable points : list point.

(** The accumulator is only ever extended. *)
Lemma simplifyDPStep_acc sqTolerance n :
  forall first last simplified,
    (last - first <= n)%nat ->
    simplifyDPStep points first last sqTolerance simplified
    = simplified ++ simplifyDPStep points first last sqTolerance [].
Proof.
  induction n as [|n IH]; intros first last simplified Hn;
    rewrite (simplifyDPStep_body points first last sqTolerance simplified),
      (simplifyDPStep_body points first last sqTolerance []);
    destruct (farthest points first last sqTolerance) as [index|] eqn:found;
    try (now rewrite app_nil_r);
    pose proof (farthest_range _ _ _ _ _ found) as Hrange; [lia|].
  cbv zeta.
  rewrite (IH first index simplified) by lia.
  rewrite (IH index last
             ((if (1 <? index - first)%nat
               then simplified
                    ++ simplifyDPStep points first index sqTolerance []
               else simplified) ++ [at_ points index])) by lia.
  rewrite (IH index last
             ((if (1 <? index - first)%nat
               then simplifyDPStep points first index sqTolerance []
               else []) ++ [at_ points index])) by lia.
  destruct (1 <? index - first)%nat, (1 <? last - index)%nat;
    simpl; rewrite <- ?app_assoc; reflexivity.
Qed.

(** The points one call appends, in terms of the points its two recursive
    calls append. *)
Lemma simplifyDPStep_split sqTolerance first last index :
  farthest points first last sqTolerance = Some index ->
  simplifyDPStep points first last sqTolerance []
  = (if (1 <? index - first)%nat
     then simplifyDPStep points first index sqTolerance [] else [])
    ++ at_ points index
    :: (if (1 <? last - index)%nat
        then simplifyDPStep points index last sqTolerance [] else []).
Proof.
  intros found. rewrite simplifyDPStep_body, found. cbv zeta.
  rewrite (simplifyDPStep_acc sqTolerance (last - index) index last) by lia.
  destruct (1 <? index - first)%nat, (1 <? last - index)%nat;
    simpl; rewrite <- ?app_assoc, ?app_nil_r; reflexivity.
Qed.

Variables sq1 sq2 : number.
Hypothesis sq_le : Number.le sq1 sq2 = true.

Lemma farthestLoop_inStep first last count :
  forall i state1 state2,
    inStep sq2 state1 state2 ->
    inStep sq2
      (farthestLoop points first last i count (fst state1) (snd state1))
      (farthestLoop points first last i count (fst state2) (snd state2)).
Proof.
  induction count as [|count IH]; intros i [index1 max1] [index2 max2] Hin;
    cbn [farthestLoop fst snd].
  - exact Hin.
  - set (sqDist := getSqSegDist (at_ points i) (at_ points first)
                     (at_ points last)).
    destruct Hin as [Hsame | [Hnone Hle]].
    + injection Hsame as -> ->.
      destruct (Number.gt sqDist max2);
        [apply (IH (S i) (Some i, sqDist) (Some i, sqDist))
        | apply (IH (S i) (index2, max2) (index2, max2))]; now left.
    + injection Hnone as -> ->. cbn [snd] in Hle.
      destruct (Number.gt sqDist sq2) eqn:Hgt2.
      * rewrite (NumberOrder.le_gt_trans max1 sq2 sqDist Hle Hgt2).
        apply (IH (S i) (Some i, sqDist) (Some i, sqDist)). now left.
      * destruct (Number.gt sqDist max1) eqn:Hgt1.
        -- apply (IH (S i) (Some i, sqDist) (None, sq2)). right.
           split; [reflexivity|]. cbn [snd].
           apply NumberOrder.not_gt_le; trivial.
           ++ apply (NumberOrder.gt_notNaN _ _ Hgt1).
           ++ apply (NumberOrder.le_notNaN _ _ Hle).
        -- apply (IH (S i) (index1, max1) (None, sq2)). right.
           split; [reflexivity | exact Hle].
Qed.

(** A point that is far enough for the larger threshold is the point
    chosen for the smaller one. *)
Lemma farthest_mono first last index :
  farthest points first last sq2 = Some index ->
  farthest points first last sq1 = Some index.
Proof.
  unfold farthest. intros found.
  pose proof (farthestLoop_inStep first last (last - S first) (S first)
                (None, sq1) (None, sq2)) as Hin.
  cbn [fst snd] in Hin.
  destruct Hin as [Hsame | [Hnone _]].
  - right. split; [reflexivity | exact sq_le].
  - now rewrite Hsame.
  - rewrite Hnone in found. discriminate.
Qed.

Lemma simplifyDPStep_mono n :
  forall first last,
    (last - first <= n)%nat ->
    (length (simplifyDPStep points first last sq2 [])
     <= length (simplifyDPStep points first last sq1 []))%nat.
Proof.
  induction n as [|n IH]; intros first last Hn.
  - rewrite (simplifyDPStep_body points first last sq2).
    destruct (farthest points first last sq2) as [index|] eqn:found;
      [|simpl; lia].
    pose proof (farthest_range _ _ _ _ _ found). lia.
  - destruct (farthest points first last sq2) as [index|] eqn:found.
    + pose proof (farthest_range _ _ _ _ _ found) as Hrange.
      rewrite (simplifyDPStep_split sq2 first last index found).
      rewrite (simplifyDPStep_split sq1 first last index
                 (farthest_mono first last index found)).
      rewrite !length_app. cbn [length].
      pose proof (IH first index ltac:(lia)).
      pose proof (IH index last ltac:(lia)).
      destruct (1 <? index - first)%nat, (1 <? last - index)%nat;
        simpl; lia.
    + rewrite (simplifyDPStep_body points first last sq2), found.
      simpl. lia.
Qed.

Lemma douglasPeucker_mono :
  (length (douglasPeucker points sq2)
   <= length (douglasPeucker points sq1))%nat.
Proof.
  unfold douglasPeucker.
  rewrite (simplifyDPStep_acc sq2 (length points - 1 - 0)) by lia.
  rewrite (simplifyDPStep_acc sq1 (length points - 1 - 0)) by lia.
  rewrite !length_app. cbn [length].
  pose proof (simplifyDPStep_mono (length points - 1 - 0) 0
                (length points - 1) ltac:(lia)).
  lia.
Qed.

End ToleranceFacts.

(** C4 (as stated): a path on which the larger tolerance gives the longer
    output: [[3,0],[0,1],[2,0],[0,0],[1,4]] is simplified to three points
    with tolerance 1 and to four points with tolerance 2.  Tolerance 2
    drops [[0,0]] in stage 1 (it is at squared distance 4 from [[2,0]]),
    and stage 2 then keeps both [[0,1]] and [[2,0]]. *)
Lemma simplifyPath_monotone_counterexample :
  Number.le Number.zero (Number.ofZ 1) = true /\
  Number.lt (Number.ofZ 1) (Number.ofZ 2) = true /\
  simplifyPath zigzagPath (Number.ofZ 1) = [pt 3 0; pt 0 0; pt 1 4] /\
  simplifyPath zigzagPath (Number.ofZ 2) = [pt 3 0; pt 0 1; pt 2 0; pt 1 4].
Proof. by_evaluation. Qed.

(** C4 (amended): for every path and all tolerances whose squares satisfy
    [t1 * t1 <= t2 * t2], if vertex reduction keeps the same points at both
    tolerances then the output of [simplifyPath] at [t1] is at least as
    long as its output at [t2]. *)
Theorem simplifyPath_monotone points t1 t2 :
  Number.le (Number.mul t1 t1) (Number.mul t2 t2) = true ->
  vertexReduction points (Number.mul t1 t1)
  = vertexReduction points (Number.mul t2 t2) ->
  (length (simplifyPath points t2) <= length (simplifyPath points t1))%nat.
Proof.
  intros Hle Hsame. unfold simplifyPath.
  destruct (length points <=? 2)%nat; [lia|].
  cbv zeta. rewrite Hsame.
  apply douglasPeucker_mono. exact Hle.
Qed.

Lemma simplifyPath_monotone_witness :
  Number.le (Number.mul (Number.ofZ 1) (Number.ofZ 1))
    (Number.mul (Number.ofZ 2) (Number.ofZ 2)) = true /\
  vertexReduction squarePath (Number.mul (Number.ofZ 1) (Number.ofZ 1))
  = vertexReduction squarePath (Number.mul (Number.ofZ 2) (Number.ofZ 2)) /\
  (length (simplifyPath squarePath (Number.ofZ 2))
   <= length (simplifyPath squarePath (Number.ofZ 1)))%nat.
Proof.
  split; [vm_compute; reflexivity|].
  split; [vm_compute; reflexivity|].
  apply (simplifyPath_monotone squarePath (Number.ofZ 1) (Number.ofZ 2));
    vm_compute; reflexivity.
Defined.

(** ** The distance to a segment *)

Section SegmentFacts.

Lemma sub_self x : isFinite x = true -> Number.sub x x = Number.zero.
Proof.
  destruct x as [s|s| |s m e]; try discriminate; intros _.
  - destruct s; reflexivity.
  - unfold Number.sub, SFsub. rewrite Z.sub_diag. reflexivity.
Qed.

Lemma degenerate_segment p1 :
  finitePoint p1 = true -> properSegment p1 p1 = false.
Proof.
  intros Hfin. apply andb_prop in Hfin. destruct Hfin as [Hx Hy].
  unfold properSegment. now rewrite (sub_self _ Hx), (sub_self _ Hy).
Qed.

End SegmentFacts.

(** C9 (as stated): a call that divides by zero.  For the segment from
    [[0,0]] to [[Number.MIN_VALUE, 0]] the test [dx !== 0 || dy !== 0]
    holds, so the division is evaluated, but its divisor
    [dx * dx + dy * dy] has underflowed to 0: the projection parameter of
    [[1,1]] is [Infinity]. *)
Lemma getSqSegDist_zero_divisor :
  properSegment (pt 0 0) (MIN_VALUE, Number.zero) = true /\
  segmentDivisor (pt 0 0) (MIN_VALUE, Number.zero) = Number.zero /\
  projectionParameter (pt 1 1) (pt 0 0) (MIN_VALUE, Number.zero)
  = S754_infinity false.
Proof. by_evaluation. Qed.

(** C9 (amended): [getSqSegDist] is total.  For a degenerate segment
    ([p2] equal to [p1], finite, so that [dx] and [dy] are 0) it evaluates
    no division and returns the plain squared distance from [p] to [p1], as
    it does whenever [dx] and [dy] are both 0.  In every other case it
    returns the squared distance from [p] to the point picked by the
    projection parameter [t]: [p2] when [t > 1], the interpolated point
    when [t > 0], and [p1] otherwise. *)
Theorem getSqSegDist_cases p p1 p2 :
  (finitePoint p1 = true -> p2 = p1 -> properSegment p1 p2 = false) /\
  getSqSegDist p p1 p2
  = if properSegment p1 p2
    then getSqDist p
           (clampedProjection p1 p2 (projectionParameter p p1 p2))
    else getSqDist p p1.
Proof.
  split.
  - intros Hfin ->. now apply degenerate_segment.
  - unfold getSqSegDist, properSegment, clampedProjection,
      projectionParameter, segmentDivisor, getSqDist.
    destruct (_ || _); [|reflexivity].
    destruct (Number.gt _ Number.one); [reflexivity|].
    destruct (Number.gt _ Number.zero); reflexivity.
Qed.

Lemma getSqSegDist_cases_witness :
  finitePoint (pt 0 0) = true /\
  properSegment (pt 0 0) (pt 0 0) = false /\
  getSqSegDist (pt 1 1) (pt 0 0) (pt 0 0) = getSqDist (pt 1 1) (pt 0 0).
Proof.
  destruct (getSqSegDist_cases (pt 1 1) (pt 0 0) (pt 0 0))
    as [Hdegenerate Hvalue].
  split; [reflexivity|].
  split; [apply Hdegenerate; reflexivity|].
  rewrite Hvalue, Hdegenerate; reflexivity.
Defined.

(** * Further properties *)

(** ** The encoder *)

Section EncoderExtras.

(** The body of [encodeNumber]: one turn of the loop, or the final
    character. *)
Lemma encodeNumber_body num :
  encodeNumber num
  = if 0x20 <=? num
    then fromCharCode (Z.lor 0x20 (Z.land num 0x1f) + 63)
           ++ encodeNumber (Z.shiftr num 5)
    else fromCharCode (num + 63).
Proof.
  funelim (encodeNumber num).
  - rewrite more. reflexivity.
  - rewrite done. reflexivity.
Qed.

Lemma encodeNumber_continue num :
  32 <= num ->
  encodeNumber num = (95 + num mod 32) :: encodeNumber (num / 32).
Proof.
  intros Hnum. rewrite encodeNumber_body.
  destruct (Z.leb_spec 0x20 num); [|lia].
  pose proof (land_0x1f_range num) as Hl.
  unfold fromCharCode. rewrite lor_0x20 by exact Hl.
  rewrite Z.mod_small by lia.
  change 0x1f with (Z.ones 5). rewrite Z.land_ones by lia.
  rewrite Z.shiftr_div_pow2 by lia. change (2 ^ 5) with 32.
  cbn [app]. f_equal. lia.
Qed.

Lemma encodeNumber_final num :
  0 <= num < 32 -> encodeNumber num = [num + 63].
Proof.
  intros Hnum. rewrite encodeNumber_body.
  destruct (Z.leb_spec 0x20 num); [lia|].
  unfold fromCharCode. now rewrite Z.mod_small by lia.
Qed.

Lemma encodeNumber_negative num :
  num < 0 -> length (encodeNumber num) = 1%nat.
Proof.
  intros Hnum. rewrite encodeNumber_body.
  destruct (Z.leb_spec 0x20 num); [lia | reflexivity].
Qed.

Lemma encodeNumber_length_le k :
  forall num,
    num < 32 ^ Z.of_nat (S k) -> (length (encodeNumber num) <= S k)%nat.
Proof.
  induction k as [|k IH]; intros num Hnum.
  - rewrite encodeNumber_body.
    destruct (Z.leb_spec 0x20 num); [simpl in Hnum; lia | simpl; lia].
  - destruct (Z.lt_ge_cases num 32) as [Hsmall|Hbig].
    + rewrite encodeNumber_body.
      destruct (Z.leb_spec 0x20 num); [lia | simpl; lia].
    + rewrite encodeNumber_continue by exact Hbig. simpl length.
      apply le_n_S. apply IH.
      apply Z.div_lt_upper_bound; [lia|].
      rewrite <- Z.pow_succ_r by lia.
      replace (Z.succ (Z.of_nat (S k))) with (Z.of_nat (S (S k))) by lia.
      exact Hnum.
Qed.

Lemma wrap32_range z : - 2 ^ 31 <= Number.wrap32 z < 2 ^ 31.
Proof.
  unfold Number.wrap32.
  pose proof (Z.mod_pos_bound z (2 ^ 32) ltac:(lia)).
  destruct (Z.leb_spec (2 ^ 31) (z mod 2 ^ 32)); lia.
Qed.

Lemma signedNumberBits_range num :
  - 2 ^ 31 <= signedNumberBits num < 2 ^ 31.
Proof.
  unfold signedNumberBits.
  pose proof (wrap32_range (Z.shiftl (Number.ToInt32 num) 1)).
  destruct (Number.lt num Number.zero); [unfold Z.lnot|]; lia.
Qed.

Lemma encodeSignedNumber_length num :
  (1 <= length (encodeSignedNumber num) <= 7)%nat.
Proof.
  unfold encodeSignedNumber. split; [apply encodeNumber_nonempty|].
  apply (encodeNumber_length_le 6).
  pose proof (signedNumberBits_range num). simpl. lia.
Qed.

Lemma deltasLoop_length points :
  forall prevLat prevLng,
    length (deltasLoop points prevLat prevLng) = (2 * length points)%nat.
Proof.
  induction points as [|p rest IH]; intros prevLat prevLng; simpl.
  - reflexivity.
  - rewrite IH. lia.
Qed.

Lemma concat_chunks_length (ds : list number) :
  (length (concat (map encodeSignedNumber ds)) <= 7 * length ds)%nat.
Proof.
  induction ds as [|d ds IH]; simpl; [lia|].
  rewrite length_app. pose proof (encodeSignedNumber_length d). lia.
Qed.

Lemma encodePolyline_at_most points :
  (length (encodePolyline points) <= 14 * length points)%nat.
Proof.
  unfold encodePolyline. rewrite encodeLoop_deltas. simpl.
  pose proof (concat_chunks_length
                (deltasLoop points Number.zero Number.zero)) as H.
  rewrite deltasLoop_length in H. lia.
Qed.

End EncoderExtras.

(** X1: whatever the path, [encodePolyline] emits at most seven characters
    for each coordinate, hence at most fourteen characters per point. *)
Theorem encodePolyline_upper_bound points :
  (length (encodePolyline points) <= 14 * length points)%nat /\
  Forall (fun chunk => (1 <= length chunk <= 7)%nat)
    (map encodeSignedNumber (deltas points)).
Proof.
  split; [apply encodePolyline_at_most|].
  apply Forall_map, Forall_forall. intros d _.
  apply encodeSignedNumber_length.
Qed.

(** X15: small deltas give short chunks: a delta that is an integer [z]
    with [2 * |z| < 32^k] is encoded in at most [k] characters (one
    character when [|z| < 16], two when [|z| < 512]). *)
Theorem encodeSignedNumber_compact d z k :
  Number.intValue d = Some z -> - 2 ^ 30 <= z < 2 ^ 30 ->
  2 * Z.abs z < 32 ^ Z.of_nat (S k) ->
  (length (encodeSignedNumber d) <= S k)%nat.
Proof.
  intros Hd Hz Hk. unfold encodeSignedNumber.
  apply encodeNumber_length_le.
  rewrite (signedNumberBits_fits d z Hd Hz).
  destruct (Z.ltb_spec z 0); lia.
Qed.

Lemma encodeSignedNumber_compact_witness :
  Number.intValue (Number.ofZ (-15)) = Some (-15) /\
  - 2 ^ 30 <= -15 < 2 ^ 30 /\
  2 * Z.abs (-15) < 32 ^ Z.of_nat 1 /\
  (length (encodeSignedNumber (Number.ofZ (-15))) <= 1)%nat.
Proof.
  split; [reflexivity|]. split; [lia|]. split; [simpl; lia|].
  apply (encodeSignedNumber_compact (Number.ofZ (-15)) (-15) 0);
    [reflexivity | lia | simpl; lia].
Defined.

Section Decodability.

Lemma cons_eq_inv (x y : Z) (l l' : list Z) :
  x :: l = y :: l' -> x = y /\ l = l'.
Proof. intros H. injection H as -> ->. split; reflexivity. Qed.

(** No encoding of a number is a proper prefix of another: a chunk can be
    cut off the front of a string in one way only. *)
Lemma encodeNumber_prefix_free_bounded k :
  forall a b rest1 rest2,
    0 <= a < 32 ^ Z.of_nat (S k) -> 0 <= b ->
    encodeNumber a ++ rest1 = encodeNumber b ++ rest2 ->
    a = b /\ rest1 = rest2.
Proof.
  induction k as [|k IH]; intros a b rest1 rest2 Ha Hb Heq.
  - change (32 ^ Z.of_nat 1) with 32 in Ha.
    rewrite (encodeNumber_final a) in Heq by lia.
    destruct (Z.lt_ge_cases b 32) as [Hsmall|Hbig].
    + rewrite (encodeNumber_final b) in Heq by lia.
      cbn [app] in Heq. apply cons_eq_inv in Heq.
      destruct Heq as [H1 H2]. split; [lia | exact H2].
    + rewrite (encodeNumber_continue b Hbig) in Heq.
      cbn [app] in Heq. apply cons_eq_inv in Heq. destruct Heq as [H1 _].
      pose proof (Z.mod_pos_bound b 32 ltac:(lia)). lia.
  - destruct (Z.lt_ge_cases a 32) as [Hasmall|Habig].
    + rewrite (encodeNumber_final a) in Heq by lia.
      destruct (Z.lt_ge_cases b 32) as [Hsmall|Hbig].
      * rewrite (encodeNumber_final b) in Heq by lia.
        cbn [app] in Heq. apply cons_eq_inv in Heq.
      destruct Heq as [H1 H2]. split; [lia | exact H2].
      * rewrite (encodeNumber_continue b Hbig) in Heq.
        cbn [app] in Heq. apply cons_eq_inv in Heq. destruct Heq as [H1 _].
        pose proof (Z.mod_pos_bound b 32 ltac:(lia)). lia.
    + rewrite (encodeNumber_continue a Habig) in Heq.
      pose proof (Z.mod_pos_bound a 32 ltac:(lia)) as Hamod.
      destruct (Z.lt_ge_cases b 32) as [Hsmall|Hbig].
      * rewrite (encodeNumber_final b) in Heq by lia.
        cbn [app] in Heq. apply cons_eq_inv in Heq. destruct Heq as [H1 _]. lia.
      * rewrite (encodeNumber_continue b Hbig) in Heq.
        cbn [app] in Heq. apply cons_eq_inv in Heq. destruct Heq as [H1 H2].
        destruct (IH (a / 32) (b / 32) rest1 rest2) as [Hdiv Hrest].
        -- split; [apply Z.div_pos; lia|].
           apply Z.div_lt_upper_bound; [lia|].
           rewrite <- Z.pow_succ_r by lia.
           replace (Z.succ (Z.of_nat (S k))) with (Z.of_nat (S (S k)))
             by lia.
           lia.
        -- apply Z.div_pos; lia.
        -- exact H2.
        -- split; [|exact Hrest].
           rewrite (Z.div_mod a 32), (Z.div_mod b 32) by lia. lia.
Qed.

Lemma pow32_above a : 0 <= a -> a < 32 ^ Z.of_nat (S (Z.to_nat a)).
Proof.
  intros Ha.
  apply Z.lt_le_trans with (2 ^ a); [apply Z.pow_gt_lin_r; lia|].
  apply Z.le_trans with (32 ^ a).
  - apply Z.pow_le_mono_l. lia.
  - apply Z.pow_le_mono_r; lia.
Qed.

Lemma encodeNumber_prefix_free a b rest1 rest2 :
  0 <= a -> 0 <= b ->
  encodeNumber a ++ rest1 = encodeNumber b ++ rest2 ->
  a = b /\ rest1 = rest2.
Proof.
  intros Ha Hb. apply (encodeNumber_prefix_free_bounded (Z.to_nat a)).
  - split; [exact Ha | apply pow32_above; exact Ha].
  - exact Hb.
Qed.

Lemma deltaFits_inv d :
  deltaFits d = true ->
  exists z, Number.intValue d = Some z /\ - 2 ^ 30 <= z < 2 ^ 30.
Proof.
  unfold deltaFits. destruct (Number.intValue d) as [z|]; [|discriminate].
  intros H. apply andb_prop in H. destruct H as [Hlo Hhi].
  apply Z.leb_le in Hlo. apply Z.ltb_lt in Hhi.
  exists z. split; [reflexivity | lia].
Qed.

(** Two lists of deltas with the same encoding are the same integers. *)
Lemma chunks_injective (ds : list number) :
  forall es,
    forallb deltaFits ds = true -> forallb deltaFits es = true ->
    concat (map encodeSignedNumber ds)
    = concat (map encodeSignedNumber es) ->
    map Number.intValue ds = map Number.intValue es.
Proof.
  induction ds as [|d ds IH]; intros [|e es] Hds Hes Heq; simpl in *.
  - reflexivity.
  - pose proof (encodeNumber_nonempty (signedNumberBits e)) as Hne.
    unfold encodeSignedNumber in Heq.
    destruct (encodeNumber (signedNumberBits e)); [simpl in Hne; lia|].
    discriminate.
  - pose proof (encodeNumber_nonempty (signedNumberBits d)) as Hne.
    unfold encodeSignedNumber in Heq.
    destruct (encodeNumber (signedNumberBits d)); [simpl in Hne; lia|].
    discriminate.
  - apply andb_prop in Hds. destruct Hds as [Hd Hds].
    apply andb_prop in Hes. destruct Hes as [He Hes].
    destruct (deltaFits_inv d Hd) as (zd & Hzd & Hrd).
    destruct (deltaFits_inv e He) as (ze & Hze & Hre).
    unfold encodeSignedNumber in Heq at 1 3.
    rewrite (signedNumberBits_fits d zd Hzd Hrd),
      (signedNumberBits_fits e ze Hze Hre) in Heq.
    apply encodeNumber_prefix_free in Heq.
    + destruct Heq as [Hbits Hrest].
      rewrite Hzd, Hze, (IH es Hds Hes Hrest). do 2 f_equal.
      destruct (Z.ltb_spec zd 0), (Z.ltb_spec ze 0); lia.
    + destruct (Z.ltb_spec zd 0); lia.
    + destruct (Z.ltb_spec ze 0); lia.
Qed.

(** The deltas of a longer path start with the deltas of its prefix. *)
Lemma deltasLoop_app front :
  forall prevLat prevLng,
  exists lat lng,
    forall back,
      deltasLoop (front ++ back) prevLat prevLng
      = deltasLoop front prevLat prevLng ++ deltasLoop back lat lng.
Proof.
  induction front as [|p rest IH]; intros prevLat prevLng.
  - exists prevLat, prevLng. reflexivity.
  - destruct (IH (Number.Math_round (Number.mul (fst p) scale))
                (Number.Math_round (Number.mul (snd p) scale)))
      as (lat & lng & Hrest).
    exists lat, lng. intros back. simpl. now rewrite Hrest.
Qed.

Lemma sub_self_cases x :
  Number.sub x x = Number.zero \/ Number.sub x x = S754_nan.
Proof.
  destruct x as [s|s| |s m e].
  - left. destruct s; reflexivity.
  - right. destruct s; reflexivity.
  - right. reflexivity.
  - left. unfold Number.sub, SFsub. rewrite Z.sub_diag. reflexivity.
Qed.

Lemma encodeSignedNumber_sub_self x :
  encodeSignedNumber (Number.sub x x) = codeUnits "?".
Proof. destruct (sub_self_cases x) as [-> | ->]; reflexivity. Qed.

End Decodability.

(** X2: on the numbers that [encodeSignedNumber] can pass, the
    non-negative 32-bit integers, the output of [encodeNumber] is
    self-delimiting: two strings that start with the encodings of [a] and
    [b] are equal exactly when [a = b] and the remainders are equal, so no
    encoding is a proper prefix of another. *)
Theorem encodeNumber_self_delimiting a b rest1 rest2 :
  0 <= a < 2 ^ 31 -> 0 <= b < 2 ^ 31 ->
  (encodeNumber a ++ rest1 = encodeNumber b ++ rest2
   <-> a = b /\ rest1 = rest2).
Proof.
  intros Ha Hb. split.
  - apply encodeNumber_prefix_free; lia.
  - intros [-> ->]. reflexivity.
Qed.

Lemma encodeNumber_self_delimiting_witness :
  0 <= 31 < 2 ^ 31 /\ 0 <= 1023 < 2 ^ 31 /\
  encodeNumber 31 = codeUnits "^" /\ encodeNumber 1023 = codeUnits "~^" /\
  (encodeNumber 31 ++ codeUnits "~^" = encodeNumber 1023 ++ codeUnits "^"
   <-> 31 = 1023 /\ codeUnits "~^" = codeUnits "^").
Proof.
  split; [lia | split; [lia|]].
  split; [vm_compute; reflexivity | split; [vm_compute; reflexivity|]].
  apply (encodeNumber_self_delimiting 31 1023 (codeUnits "~^")
           (codeUnits "^")); lia.
Defined.

(** X3: [encodePolyline] loses nothing but the rounding: two paths whose
    deltas are integers in [-2^30, 2^30) and whose encodings are equal have
    the same number of points and the same sequence of deltas. *)
Theorem encodePolyline_injective points1 points2 :
  forallb deltaFits (deltas points1) = true ->
  forallb deltaFits (deltas points2) = true ->
  encodePolyline points1 = encodePolyline points2 ->
  length points1 = length points2 /\
  map Number.intValue (deltas points1) = map Number.intValue (deltas points2).
Proof.
  intros Hfit1 Hfit2 Heq. unfold encodePolyline in Heq.
  rewrite !encodeLoop_deltas in Heq. simpl in Heq.
  pose proof (chunks_injective _ _ Hfit1 Hfit2 Heq) as Hdeltas.
  split; [|exact Hdeltas].
  apply (f_equal (@length _)) in Hdeltas.
  unfold deltas in Hdeltas.
  rewrite !length_map, !deltasLoop_length in Hdeltas. lia.
Qed.

Lemma encodePolyline_injective_witness :
  forallb deltaFits (deltas googleExample) = true /\
  forallb deltaFits (deltas googleExample) = true /\
  encodePolyline googleExample = encodePolyline googleExample /\
  length googleExample = length googleExample /\
  map Number.intValue (deltas googleExample)
  = map Number.intValue (deltas googleExample).
Proof.
  split; [vm_compute; reflexivity|].
  split; [vm_compute; reflexivity|].
  split; [reflexivity|].
  apply (encodePolyline_injective googleExample googleExample);
    vm_compute; reflexivity.
Defined.

(** X4: encoding is incremental: the encoding of a path is a prefix of the
    encoding of every extension of it. *)
Theorem encodePolyline_prefix front back :
  exists suffix,
    encodePolyline (front ++ back) = encodePolyline front ++ suffix.
Proof.
  destruct (deltasLoop_app front Number.zero Number.zero)
    as (lat & lng & Happ).
  exists (concat (map encodeSignedNumber (deltasLoop back lat lng))).
  unfold encodePolyline. rewrite !encodeLoop_deltas. simpl.
  now rewrite Happ, map_app, concat_app.
Qed.

(** X5: a point that repeats its predecessor contributes exactly the two
    characters [??] (two zero deltas), whatever its coordinates, and what
    follows it is encoded as if it were not repeated. *)
Theorem encodePolyline_duplicate front p back :
  exists suffix,
    encodePolyline (front ++ p :: back)
    = encodePolyline (front ++ [p]) ++ suffix /\
    encodePolyline (front ++ p :: p :: back)
    = encodePolyline (front ++ [p]) ++ codeUnits "??" ++ suffix.
Proof.
  destruct (deltasLoop_app front Number.zero Number.zero)
    as (lat & lng & Happ).
  set (lat' := Number.Math_round (Number.mul (fst p) scale)).
  set (lng' := Number.Math_round (Number.mul (snd p) scale)).
  exists (concat (map encodeSignedNumber (deltasLoop back lat' lng'))).
  unfold encodePolyline. rewrite !encodeLoop_deltas, !Happ. simpl.
  fold lat' lng'.
  rewrite !map_app, !concat_app. simpl.
  rewrite !encodeSignedNumber_sub_self. simpl.
  rewrite <- !app_assoc. simpl. split; reflexivity.
Qed.

(** ** The simplifier *)

Section SimplifierExtras.

Lemma sorted_bounded_length indices n :
  StronglySorted Nat.lt indices ->
  forall lo, (lo <= n)%nat ->
    Forall (fun i => (lo <= i < n)%nat) indices ->
    (length indices + lo <= n)%nat.
Proof.
  induction 1 as [|a rest Hsorted IH Hall]; intros lo Hlo Hbound; simpl.
  - exact Hlo.
  - inversion Hbound as [|? ? Ha Hrest]; subst.
    specialize (IH (S a) ltac:(lia)).
    assert (Hrest' : Forall (fun i => (S a <= i < n)%nat) rest).
    { rewrite Forall_forall in *. intros i Hi.
      specialize (Hall i Hi). specialize (Hrest i Hi).
      unfold Nat.lt in Hall. lia. }
    specialize (IH Hrest'). lia.
Qed.

Lemma subsequenceOf_length out points :
  subsequenceOf out points -> (length out <= length points)%nat.
Proof.
  intros (indices & -> & Hsorted & Hbound). rewrite length_map.
  pose proof (sorted_bounded_length indices (length points) Hsorted 0
                ltac:(lia)) as H.
  rewrite Nat.add_0_r in H. apply H.
  eapply Forall_impl; [|exact Hbound]. simpl. lia.
Qed.

Lemma douglasPeucker_length reducedPoints sqTolerance :
  (2 <= length (douglasPeucker reducedPoints sqTolerance))%nat.
Proof.
  unfold douglasPeucker.
  destruct (simplifyDPStep_indices reducedPoints 0 (length reducedPoints - 1)
              sqTolerance [at_ reducedPoints 0]) as (indices & -> & _).
  rewrite !length_app. simpl. lia.
Qed.

Lemma mul_neg_neg t :
  Number.mul (Number.neg t) (Number.neg t) = Number.mul t t.
Proof.
  destruct t as [s|s| |s m e]; unfold Number.mul, Number.neg; simpl;
    try reflexivity; destruct s; reflexivity.
Qed.

(** Nothing exceeds the square of a tolerance that is NaN or infinite. *)
Lemma gt_square_nonfinite t x :
  isFinite t = false -> Number.gt x (Number.mul t t) = false.
Proof.
  destruct t as [s|s| |s m e]; try discriminate; intros _.
  - destruct s, x as [sx|sx| |sx mx ex]; try destruct sx; reflexivity.
  - destruct x as [sx|sx| |sx mx ex]; reflexivity.
Qed.

Lemma filter_none {A} (keep : A -> bool) l :
  (forall x, keep x = false) -> filter keep l = [].
Proof.
  intros Hnone. induction l as [|x l IH]; simpl; [reflexivity|].
  now rewrite Hnone.
Qed.

Lemma simplifyPath_no_longer points tolerance :
  (length (simplifyPath points tolerance) <= length points)%nat.
Proof.
  unfold simplifyPath.
  destruct (Nat.leb_spec (length points) 2) as [Hshort|Hlong]; [lia|].
  apply subsequenceOf_length.
  apply subsequenceOf_trans
    with (vertexReduction points (Number.mul tolerance tolerance)).
  - apply douglasPeucker_subsequence. apply vertexReduction_length.
  - apply vertexReduction_subsequence. lia.
Qed.

Lemma simplifyPath_two_points points tolerance :
  (2 <= length points)%nat ->
  (2 <= length (simplifyPath points tolerance))%nat.
Proof.
  intros Hlen. unfold simplifyPath.
  destruct (Nat.leb_spec (length points) 2) as [Hshort|Hlong]; [lia|].
  apply douglasPeucker_length.
Qed.

End SimplifierExtras.

(** X6: [simplifyPath] never returns more points than it was given, and
    it returns at least two points whenever it was given at least two. *)
Theorem simplifyPath_output_size points tolerance :
  (length (simplifyPath points tolerance) <= length points)%nat /\
  ((2 <= length points)%nat ->
   (2 <= length (simplifyPath points tolerance))%nat).
Proof.
  split; [apply simplifyPath_no_longer | apply simplifyPath_two_points].
Qed.

Lemma simplifyPath_output_size_witness :
  (length (simplifyPath zigzagPath (Number.ofZ 1))
   <= length zigzagPath)%nat /\
  (2 <= length zigzagPath)%nat /\
  (2 <= length (simplifyPath zigzagPath (Number.ofZ 1)))%nat.
Proof.
  destruct (simplifyPath_output_size zigzagPath (Number.ofZ 1))
    as [Hle Hge].
  split; [exact Hle|]. split; [simpl; lia|]. apply Hge. simpl. lia.
Defined.

(** X7: the sign of the tolerance is ignored: a negative tolerance
    simplifies exactly as its opposite does. *)
Theorem simplifyPath_negative_tolerance points tolerance :
  simplifyPath points (Number.neg tolerance) = simplifyPath points tolerance.
Proof. unfold simplifyPath. now rewrite mul_neg_neg. Qed.

(** X8: with a tolerance that is NaN or infinite, a path of more than two
    points is reduced to its two end points. *)
Theorem simplifyPath_nonfinite_tolerance points tolerance :
  (2 < length points)%nat -> isFinite tolerance = false ->
  simplifyPath points tolerance
  = [at_ points 0; at_ points (length points - 1)].
Proof.
  intros Hlen Hnan. unfold simplifyPath.
  destruct (Nat.leb_spec (length points) 2); [lia|]. cbv zeta.
  rewrite vertexReduction_indices.
  rewrite filter_none
    by (intros i; unfold farFromPredecessor;
        apply gt_square_nonfinite; exact Hnan).
  unfold douglasPeucker. cbn [app map length Nat.sub].
  rewrite simplifyDPStep_body. reflexivity.
Qed.

Lemma simplifyPath_nonfinite_tolerance_witness :
  (2 < length zigzagPath)%nat /\ isFinite S754_nan = false /\
  simplifyPath zigzagPath S754_nan
  = [at_ zigzagPath 0; at_ zigzagPath (length zigzagPath - 1)].
Proof.
  split; [simpl; lia|]. split; [reflexivity|].
  apply (simplifyPath_nonfinite_tolerance zigzagPath S754_nan);
    [simpl; lia | reflexivity].
Defined.

(** X16: [simplifyDPStep] only appends to [simplified]: what was there
    stays in front, and what is appended does not depend on it. *)
Theorem simplifyDPStep_appends points first last sqTolerance simplified :
  simplifyDPStep points first last sqTolerance simplified
  = simplified ++ simplifyDPStep points first last sqTolerance [].
Proof.
  apply (simplifyDPStep_acc points sqTolerance (last - first)). lia.
Qed.

Module NumberOrderExtras.

Import Number.

Lemma gt_trans a b c : gt a b = true -> gt b c = true -> gt a c = true.
Proof.
  rewrite !NumberOrder.gt_spec. unfold keyLt.
  intros (Ha & Hb & K1) (_ & Hc & K2). split; [|split]; trivial. lia.
Qed.

Lemma gt_irrefl a : gt a a = false.
Proof.
  destruct (gt a a) eqn:H; [|reflexivity].
  apply NumberOrder.gt_spec in H. unfold keyLt in H. lia.
Qed.

(** [c > b] and not [a > b] leave no way for [c <= a]. *)
Lemma gt_not_gt_le c a b :
  gt c b = true -> gt a b = false -> le c a = false.
Proof.
  intros Hcb Hab. destruct (le c a) eqn:Hle; [|reflexivity].
  pose proof (NumberOrder.le_gt_trans c a) as Htrans.
  apply NumberOrder.le_spec in Hle. destruct Hle as (Hc & Ha & K).
  apply NumberOrder.gt_spec in Hcb. destruct Hcb as (_ & Hb & Kcb).
  assert (Hgt : gt a b = true).
  { apply NumberOrder.gt_spec. split; [|split]; trivial.
    unfold keyLt, keyEq in *. lia. }
  congruence.
Qed.

End NumberOrderExtras.

Section FarthestFacts.

Variable points : list point.
Variables first last : nat.
Variable sqTolerance : number.

Lemma farthestLoop_farthestSoFar start count :
  forall i state,
    (start <= i)%nat ->
    farthestSoFar points first last sqTolerance start i state ->
    farthestSoFar points first last sqTolerance start (i + count)
      (farthestLoop points first last i count (fst state) (snd state)).
Proof.
  induction count as [|count IH]; intros i [index maxSqDist] Hstart Hinv;
    cbn [farthestLoop fst snd].
  - now rewrite Nat.add_0_r.
  - fold (sqSegDistAt points first last i).
    replace (i + S count)%nat with (S i + count)%nat by lia.
    destruct (Number.gt (sqSegDistAt points first last i) maxSqDist)
      eqn:Hgt.
    + apply (IH (S i) (Some i, sqSegDistAt points first last i));
        [lia|].
      unfold farthestSoFar in *. cbn [fst snd] in *.
      destruct index as [k|].
      * destruct Hinv as (Hk & -> & Hfar & Hmax & Hfirst).
        split; [lia|]. split; [reflexivity|]. split; [|split].
        -- apply (NumberOrderExtras.gt_trans _ _ _ Hgt Hfar).
        -- intros j Hj. destruct (Nat.eq_dec j i) as [->|Hne];
             [apply NumberOrderExtras.gt_irrefl|].
           destruct (Number.gt (sqSegDistAt points first last j)
                       (sqSegDistAt points first last i)) eqn:Hji;
             [|reflexivity].
           rewrite <- (Hmax j ltac:(lia)).
           symmetry. apply (NumberOrderExtras.gt_trans _ _ _ Hji Hgt).
        -- intros j Hj.
           apply (NumberOrderExtras.gt_not_gt_le _ _ _ Hgt).
           apply Hmax. lia.
      * destruct Hinv as (-> & Hnone).
        split; [lia|]. split; [reflexivity|]. split; [exact Hgt|]. split.
        -- intros j Hj. destruct (Nat.eq_dec j i) as [->|Hne];
             [apply NumberOrderExtras.gt_irrefl|].
           destruct (Number.gt (sqSegDistAt points first last j)
                       (sqSegDistAt points first last i)) eqn:Hji;
             [|reflexivity].
           rewrite <- (Hnone j ltac:(lia)).
           symmetry. apply (NumberOrderExtras.gt_trans _ _ _ Hji Hgt).
        -- intros j Hj.
           apply (NumberOrderExtras.gt_not_gt_le _ _ _ Hgt).
           apply Hnone. lia.
    + apply (IH (S i) (index, maxSqDist)); [lia|].
      unfold farthestSoFar in *. cbn [fst snd] in *.
      destruct index as [k|].
      * destruct Hinv as (Hk & -> & Hfar & Hmax & Hfirst).
        split; [lia|]. split; [reflexivity|]. split; [exact Hfar|].
        split; [|exact Hfirst].
        intros j Hj. destruct (Nat.eq_dec j i) as [->|Hne];
          [exact Hgt | apply Hmax; lia].
      * destruct Hinv as (-> & Hnone). split; [reflexivity|].
        intros j Hj. destruct (Nat.eq_dec j i) as [->|Hne];
          [exact Hgt | apply Hnone; lia].
Qed.

Lemma farthest_farthestSoFar :
  (first < last)%nat ->
  farthestSoFar points first last sqTolerance (S first) last
    (farthestLoop points first last (S first) (last - S first) None
       sqTolerance).
Proof.
  intros Hlt.
  pose proof (farthestLoop_farthestSoFar (S first) (last - S first)
                (S first) (None, sqTolerance)) as H.
  replace (S first + (last - S first))%nat with last in H by lia.
  apply H; [lia|]. unfold farthestSoFar. cbn [fst snd].
  split; [reflexivity|]. intros j Hj. lia.
Qed.

Lemma farthest_none :
  farthest points first last sqTolerance = None ->
  forall i, (first < i < last)%nat ->
    Number.gt (sqSegDistAt points first last i) sqTolerance = false.
Proof.
  intros Hnone i Hi.
  pose proof (farthest_farthestSoFar ltac:(lia)) as H.
  unfold farthest in Hnone. unfold farthestSoFar in H.
  rewrite Hnone in H. destruct H as [_ H]. apply H. lia.
Qed.

End FarthestFacts.

(** X9: the loop of [simplifyDPStep] picks a farthest point.  When it
    leaves [index] set to [k], the point at [k] lies strictly between
    [first] and [last], its distance to the segment exceeds the tolerance,
    no point of the range is farther, and every earlier point of the range
    is strictly nearer (or its distance is NaN); when it leaves [index]
    null, no point of the range exceeds the tolerance. *)
Theorem farthest_is_farthest points first last sqTolerance :
  (first < last)%nat ->
  match farthest points first last sqTolerance with
  | Some k =>
      (first < k < last)%nat /\
      Number.gt (sqSegDistAt points first last k) sqTolerance = true /\
      (forall i, (first < i < last)%nat ->
         Number.gt (sqSegDistAt points first last i)
           (sqSegDistAt points first last k) = false) /\
      (forall i, (first < i < k)%nat ->
         Number.le (sqSegDistAt points first last k)
           (sqSegDistAt points first last i) = false)
  | None =>
      forall i, (first < i < last)%nat ->
        Number.gt (sqSegDistAt points first last i) sqTolerance = false
  end.
Proof.
  intros Hlt.
  pose proof (farthest_farthestSoFar points first last sqTolerance Hlt) as H.
  unfold farthest, farthestSoFar in *.
  destruct (fst (farthestLoop points first last (S first) (last - S first)
                   None sqTolerance)) as [k|].
  - destruct H as (Hk & _ & Hfar & Hmax & Hfirst).
    split; [lia|]. split; [exact Hfar|]. split.
    + intros i Hi. apply Hmax. lia.
    + intros i Hi. apply Hfirst. lia.
  - destruct H as [_ H]. intros i Hi. apply H. lia.
Qed.

Lemma farthest_is_farthest_witness :
  (0 < 4)%nat /\
  farthest zigzagPath 0 4 (Number.ofZ 1) = Some 3%nat /\
  Number.gt (sqSegDistAt zigzagPath 0 4 3) (Number.ofZ 1) = true /\
  Number.gt (sqSegDistAt zigzagPath 0 4 1) (sqSegDistAt zigzagPath 0 4 3)
  = false.
Proof.
  pose proof (farthest_is_farthest zigzagPath 0 4 (Number.ofZ 1)
                ltac:(lia)) as H.
  assert (E : farthest zigzagPath 0 4 (Number.ofZ 1) = Some 3%nat)
    by (vm_compute; reflexivity).
  rewrite E in H. destruct H as (_ & Hfar & Hmax & _).
  split; [lia|]. split; [exact E|]. split; [exact Hfar|].
  apply Hmax. lia.
Defined.

Section ToleranceGuarantee.

Variable points : list point.
Variable sqTolerance : number.

Lemma gapsWithin_join front :
  forall mid back,
    gapsWithin points sqTolerance (front ++ [mid]) ->
    gapsWithin points sqTolerance (mid :: back) ->
    gapsWithin points sqTolerance (front ++ mid :: back).
Proof.
  induction front as [|a front IH]; intros mid back Hfront Hback.
  - exact Hback.
  - cbn [app gapsWithin] in *. destruct Hfront as [Hgap Hrest].
    split; [|apply IH; assumption].
    destruct front; exact Hgap.
Qed.

Lemma gapsWithin_adjacent a b :
  (b - a <= 1)%nat -> gapsWithin points sqTolerance [a; b].
Proof.
  intros Hab. cbn [gapsWithin]. split; [|split; trivial].
  intros i Hi. lia.
Qed.

(** Every range that [simplifyDPStep] leaves without a kept point is
    within the tolerance of the segment that spans it. *)
Lemma simplifyDPStep_gaps first last simplified :
  (first < last)%nat ->
  exists indices,
    simplifyDPStep points first last sqTolerance simplified
    = simplified ++ map (at_ points) indices /\
    ascending (S first) last indices /\
    gapsWithin points sqTolerance (first :: indices ++ [last]).
Proof.
  funelim (simplifyDPStep points first last sqTolerance simplified);
    intros Hlt.
  - pose proof (farthest_range _ _ _ _ _ found) as Hrange.
    destruct (H ltac:(lia)) as (front & Hfront & Hasc1 & Hgap1).
    destruct (H0 ltac:(lia)) as (back & Hback & Hasc2 & Hgap2).
    clear H H0.
    set (front' := if (1 <? index - first)%nat then front else []).
    set (back' := if (1 <? last - index)%nat then back else []).
    assert (Hgap1' : gapsWithin points sqTolerance
                       ((first :: front') ++ [index])).
    { subst front'. destruct (Nat.ltb_spec 1 (index - first)).
      - exact Hgap1.
      - apply gapsWithin_adjacent. lia. }
    assert (Hgap2' : gapsWithin points sqTolerance
                       (index :: back' ++ [last])).
    { subst back'. destruct (Nat.ltb_spec 1 (last - index)).
      - exact Hgap2.
      - apply gapsWithin_adjacent. lia. }
    exists (front' ++ index :: back'). split; [|split].
    + rewrite map_app. simpl.
      subst front' back'.
      destruct (1 <? last - index)%nat.
      * rewrite Hback.
        destruct (1 <? index - first)%nat;
          [rewrite Hfront|]; simpl; rewrite <- ?app_assoc; reflexivity.
      * destruct (1 <? index - first)%nat;
          [rewrite Hfront|]; simpl; rewrite <- ?app_assoc; reflexivity.
    + apply (ascending_app front' (S first) index last); [lia | |].
      * subst front'. destruct (1 <? index - first)%nat; simpl; trivial.
      * simpl. split; [lia|].
        subst back'. destruct (1 <? last - index)%nat; simpl; trivial.
    + rewrite <- app_assoc.
      apply (gapsWithin_join (first :: front') index (back' ++ [last]));
        assumption.
  - exists []. split; [now rewrite app_nil_r|]. split; [exact I|].
    cbn [app gapsWithin]. split; [|split; trivial].
    intros i Hi. apply farthest_none; assumption.
Qed.

End ToleranceGuarantee.

(** X10: what stage 2 guarantees.  For a path of more than two points the
    output of [simplifyPath] consists of the first point of the reduced
    path, points at increasing positions of it and its last point, and no
    point of the reduced path that lies between two consecutive output
    points is farther than the squared tolerance from the segment that
    joins them. *)
Theorem simplifyPath_within_tolerance points tolerance :
  (2 < length points)%nat ->
  let sqTolerance := Number.mul tolerance tolerance in
  let reducedPoints := vertexReduction points sqTolerance in
  let last := (length reducedPoints - 1)%nat in
  exists middle,
    simplifyPath points tolerance
    = map (at_ reducedPoints) (0%nat :: middle ++ [last]) /\
    ascending 1 last middle /\
    gapsWithin reducedPoints sqTolerance (0%nat :: middle ++ [last]).
Proof.
  intros Hlen sqTolerance reducedPoints last.
  pose proof (vertexReduction_length points sqTolerance) as Hreduced.
  fold reducedPoints in Hreduced.
  destruct (simplifyDPStep_gaps reducedPoints sqTolerance 0 last
              [at_ reducedPoints 0] ltac:(subst last; lia))
    as (middle & Hstep & Hasc & Hgaps).
  exists middle. split; [|split; assumption].
  unfold simplifyPath.
  destruct (Nat.leb_spec (length points) 2); [lia|]. cbv zeta.
  fold sqTolerance. fold reducedPoints. unfold douglasPeucker.
  fold last. rewrite Hstep. cbn [map app]. rewrite map_app.
  reflexivity.
Qed.

Lemma simplifyPath_within_tolerance_witness :
  (2 < length zigzagPath)%nat /\
  exists middle,
    simplifyPath zigzagPath (Number.ofZ 1)
    = map (at_ (vertexReduction zigzagPath
                  (Number.mul (Number.ofZ 1) (Number.ofZ 1))))
        (0%nat :: middle
         ++ [(length (vertexReduction zigzagPath
                        (Number.mul (Number.ofZ 1) (Number.ofZ 1))) - 1)%nat])
    /\
    ascending 1
      (length (vertexReduction zigzagPath
                 (Number.mul (Number.ofZ 1) (Number.ofZ 1))) - 1) middle /\
    gapsWithin
      (vertexReduction zigzagPath (Number.mul (Number.ofZ 1) (Number.ofZ 1)))
      (Number.mul (Number.ofZ 1) (Number.ofZ 1))
      (0%nat :: middle
       ++ [(length (vertexReduction zigzagPath
                      (Number.mul (Number.ofZ 1) (Number.ofZ 1))) - 1)%nat]).
Proof.
  split; [simpl; lia|].
  apply (simplifyPath_within_tolerance zigzagPath (Number.ofZ 1)).
  simpl. lia.
Defined.

(** ** Squared distances *)

Section DistanceFacts.

Lemma binary_round_aux_hasSign s mx ex lx :
  hasSign s (binary_round_aux Number.prec Number.emax s mx ex lx).
Proof.
  unfold binary_round_aux.
  destruct (shr_fexp _ _ mx ex lx) as [mrs' e'].
  destruct (shr_fexp _ _ _ e' loc_Exact) as [mrs'' e''].
  destruct (shr_m mrs''); simpl; trivial.
  destruct (_ <=? _); reflexivity.
Qed.

Lemma binary_round_aux_neg s mx ex lx :
  binary_round_aux Number.prec Number.emax (negb s) mx ex lx
  = SFopp (binary_round_aux Number.prec Number.emax s mx ex lx).
Proof.
  unfold binary_round_aux.
  destruct (shr_fexp _ _ mx ex lx) as [mrs' e'].
  destruct (shr_fexp _ _ _ e' loc_Exact) as [mrs'' e''].
  destruct (shr_m mrs''); simpl; trivial.
  destruct (_ <=? _); reflexivity.
Qed.

Lemma binary_normalize_opp z e :
  binary_normalize Number.prec Number.emax (- z) e false
  = SFopp (binary_normalize Number.prec Number.emax z e false) \/
  (binary_normalize Number.prec Number.emax z e false = Number.zero /\
   binary_normalize Number.prec Number.emax (- z) e false = Number.zero).
Proof.
  destruct z as [|p|p]; [right; split; reflexivity | left | left];
    unfold binary_normalize, binary_round; cbn [Z.opp];
    destruct (shl_align _ _ _) as [mz ez].
  - apply (binary_round_aux_neg false).
  - rewrite (binary_round_aux_neg false).
    now destruct (binary_round_aux _ _ _ _ _ _) as [[]|[]| |[] ? ?].
Qed.

(** Swapping the operands of a subtraction negates the result, unless it
    is the zero of two equal operands. *)
Lemma sub_swap a b :
  Number.sub b a = Number.neg (Number.sub a b) \/
  (Number.sub a b = Number.zero /\ Number.sub b a = Number.zero).
Proof.
  destruct a as [sa|sa| |sa ma ea], b as [sb|sb| |sb mb eb];
    try (left; reflexivity);
    try (destruct sa, sb; (left; reflexivity) || (right; split; reflexivity)).
  unfold Number.sub, Number.neg, SFsub. rewrite (Z.min_comm eb ea).
    set (A := cond_Zopp sa _). set (B := cond_Zopp sb _).
    replace (B - A) with (- (A - B)) by lia.
    apply binary_normalize_opp.
Qed.

Lemma mul_self_hasSign d : hasSign false (Number.mul d d).
Proof.
  destruct d as [s|s| |s m e]; simpl; trivial; try (now destruct s).
  unfold Number.mul, SFmul.
  replace (xorb s s) with false by now destruct s.
  apply binary_round_aux_hasSign.
Qed.

Lemma add_hasSign a b :
  hasSign false a -> hasSign false b -> hasSign false (Number.add a b).
Proof.
  destruct a as [sa|sa| |sa ma ea], b as [sb|sb| |sb mb eb];
    cbn [hasSign]; intros Ha Hb; subst; try (simpl; trivial; fail).
  unfold Number.add, SFadd, binary_normalize, cond_Zopp.
  destruct (shl_align ma ea _) as [m1 e1], (shl_align mb eb _) as [m2 e2].
  cbn [fst Z.add]. unfold binary_round.
  destruct (shl_align _ _ _) as [mz ez].
  apply binary_round_aux_hasSign.
Qed.

Lemma hasSign_not_negative x :
  hasSign false x -> Number.lt x Number.zero = false.
Proof. destruct x as [s|s| |s m e]; simpl; intros; subst; reflexivity. Qed.

Lemma mul_self_swap a b :
  Number.mul (Number.sub b a) (Number.sub b a)
  = Number.mul (Number.sub a b) (Number.sub a b).
Proof.
  destruct (sub_swap a b) as [-> | [-> ->]].
  - apply mul_neg_neg.
  - reflexivity.
Qed.

End DistanceFacts.

(** X11: [getSqDist] does not depend on the order of its two points. *)
Theorem getSqDist_symmetric p1 p2 : getSqDist p1 p2 = getSqDist p2 p1.
Proof.
  unfold getSqDist.
  now rewrite (mul_self_swap (fst p1) (fst p2)),
    (mul_self_swap (snd p1) (snd p2)).
Qed.

(** X12: neither [getSqDist] nor [getSqSegDist] ever returns a negative
    Number: the result is NaN or has a clear sign bit. *)
Theorem squared_distances_not_negative p p1 p2 :
  Number.lt (getSqDist p1 p2) Number.zero = false /\
  Number.lt (getSqSegDist p p1 p2) Number.zero = false.
Proof.
  split; apply hasSign_not_negative.
  - unfold getSqDist. apply add_hasSign; apply mul_self_hasSign.
  - unfold getSqSegDist.
    match goal with
    | |- context [let '(x, y) := ?target in _] => destruct target as [x y]
    end.
    apply add_hasSign; apply mul_self_hasSign.
Qed.

(** ** The component *)

Section ComponentFacts.

Lemma encodedBoundary_length coordinates :
  (length (encodedBoundary coordinates) <= 14 * length coordinates)%nat /\
  ((2 <= length coordinates)%nat ->
   (4 <= length (encodedBoundary coordinates))%nat).
Proof.
  unfold encodedBoundary. cbv zeta.
  set (latLngs := map toLatLng coordinates).
  assert (Hswap : length latLngs = length coordinates)
    by apply length_map.
  pose proof (simplifyPath_no_longer latLngs (Number.decimal 1 3)) as Hle.
  pose proof (encodePolyline_at_most
                (simplifyPath latLngs (Number.decimal 1 3))) as Hupper.
  split; [lia|]. intros Hlen.
  pose proof (simplifyPath_two_points latLngs (Number.decimal 1 3)
                ltac:(lia)) as Hge.
  pose proof (encodeLoop_length (simplifyPath latLngs (Number.decimal 1 3))
                [] Number.zero Number.zero) as Hlower.
  fold (encodePolyline (simplifyPath latLngs (Number.decimal 1 3)))
    in Hlower.
  simpl length in Hlower. lia.
Qed.

End ComponentFacts.

(** X13: what a call of [fetchMapData] does when its request settles,
    whatever the state of the component then is.  [loading] becomes false
    and [altText] is left alone.  When the request succeeded with a first
    result that is a polygon with at least one ring or a multi-polygon,
    [mapUrl] becomes the URL of the static map and [error] keeps the value
    it had: the call never clears an error.  In every other case (failed
    request, no result, another geometry, a polygon without rings) [error]
    becomes the failure message and [mapUrl] keeps its value.  So an error
    once set stays until the watcher clears it. *)
Theorem fetchMapData_outcome numberToString apiKey response c :
  let c' := fetchMapData numberToString apiKey response c in
  let drawable :=
    exists result rest,
      response = Some (result :: rest) /\
      ((exists ring rings, geojson result = Polygon (ring :: rings)) \/
       (exists polygons, geojson result = MultiPolygon polygons)) in
  loading c' = false /\
  altText c' = altText c /\
  (drawable ->
   staticMapUrl numberToString apiKey response = inr (mapUrl c') /\
   error c' = error c) /\
  (~ drawable ->
   error c' = Some (codeUnits "Failed to load map data.") /\
   mapUrl c' = mapUrl c) /\
  (error c <> None -> error c' <> None).
Proof.
  unfold fetchMapData.
  destruct (staticMapUrl numberToString apiKey response) as [e|url] eqn:Hurl;
    cbn [loading altText error mapUrl].
  - split; [reflexivity|]. split; [reflexivity|].
    split; [|split; [auto | discriminate]].
    intros (result & rest & -> & Hgeo). exfalso.
    unfold staticMapUrl, boundaryCoordinates in Hurl.
    destruct Hgeo as [(ring & rings & Hgeo) | (polygons & Hgeo)];
      rewrite Hgeo in Hurl; discriminate.
  - split; [reflexivity|]. split; [reflexivity|].
    split; [auto|]. split; [|auto].
    intros Hnot. exfalso. apply Hnot.
    unfold staticMapUrl, boundaryCoordinates in Hurl.
    destruct response as [[|result rest]|]; try discriminate.
    exists result, rest. split; [reflexivity|].
    destruct (geojson result) as [[|ring rings]|polygons|];
      try discriminate.
    + left. exists ring, rings. reflexivity.
    + right. exists polygons. reflexivity.
Qed.

(** The request of the mount fails after the watcher has run, and the
    request of the watcher then succeeds: the new URL is stored, and the
    failure message stays. *)
Lemma fetchMapData_outcome_witness :
  let numberToString := fun _ : number => codeUnits "0" in
  let result :=
    {| geojson := Polygon [[pt 0 0; pt 0 1; pt 1 1; pt 0 0]];
       centerLat := Number.ofZ 0; centerLon := Number.ofZ 0 |} in
  let mounted :=
    {| mapUrl := []; loading := true; error := None;
       altText := codeUnits "Static map with New York City boundaries" |} in
  let watched := locationWatcher (codeUnits "Paris") mounted in
  let failed := fetchMapData numberToString (codeUnits "KEY") None watched in
  let settled :=
    fetchMapData numberToString (codeUnits "KEY") (Some [result]) failed in
  error watched = None /\
  error failed = Some (codeUnits "Failed to load map data.") /\
  loading settled = false /\
  altText settled = codeUnits "Static map with Paris boundaries" /\
  staticMapUrl numberToString (codeUnits "KEY") (Some [result])
  = inr (mapUrl settled) /\
  error settled = Some (codeUnits "Failed to load map data.").
Proof.
  intros numberToString result mounted watched failed settled.
  destruct (fetchMapData_outcome numberToString (codeUnits "KEY") None
              watched) as (_ & _ & _ & Hfail & _).
  destruct (fetchMapData_outcome numberToString (codeUnits "KEY")
              (Some [result]) failed) as (Hloading & Halt & Hok & _ & _).
  assert (Hfailed : error failed = Some (codeUnits "Failed to load map data.")).
  { apply Hfail. intros (r & rs & Hresp & _). discriminate. }
  assert (Hsettled : staticMapUrl numberToString (codeUnits "KEY")
                       (Some [result]) = inr (mapUrl settled)
                     /\ error settled = error failed).
  { apply Hok. exists result, []. split; [reflexivity|].
    left. exists [pt 0 0; pt 0 1; pt 1 1; pt 0 0], []. reflexivity. }
  destruct Hsettled as [Hurl Herr].
  split; [reflexivity|]. split; [exact Hfailed|].
  split; [exact Hloading|]. split; [reflexivity|].
  split; [exact Hurl|]. rewrite Herr. exact Hfailed.
Defined.

(** X14: the polyline that [fetchMapData] puts in the URL.  When the first
    result has drawable coordinates, the URL is the fixed text around the
    centre, the encoded boundary and the key, and the encoded boundary has
    at most fourteen characters per position of the boundary, and at least
    four as soon as the boundary has two positions. *)
Theorem staticMapUrl_polyline numberToString apiKey result rest
    coordinates :
  boundaryCoordinates (geojson result) = inr coordinates ->
  exists encoded,
    staticMapUrl numberToString apiKey (Some (result :: rest))
    = inr (codeUnits
             "https://maps.googleapis.com/maps/api/staticmap?center="
             ++ numberToString (centerLat result) ++ codeUnits ","
             ++ numberToString (centerLon result)
             ++ codeUnits "&zoom=" ++ numberToString (Number.ofZ 10)
             ++ codeUnits "&size=600x300&scale=2&path=enc:"
             ++ encoded ++ codeUnits "&key=" ++ apiKey) /\
    encoded
    = encodePolyline
        (simplifyPath (map toLatLng coordinates) (Number.decimal 1 3)) /\
    (length encoded <= 14 * length coordinates)%nat /\
    ((2 <= length coordinates)%nat -> (4 <= length encoded)%nat).
Proof.
  intros Hgeo. exists (encodedBoundary coordinates).
  split; [|split; [reflexivity | apply encodedBoundary_length]].
  unfold staticMapUrl. rewrite Hgeo. cbv zeta.
  rewrite <- !app_assoc. reflexivity.
Qed.

Lemma staticMapUrl_polyline_witness :
  let result :=
    {| geojson := Polygon [[pt 0 0; pt 0 1; pt 1 1; pt 0 0]];
       centerLat := Number.ofZ 0; centerLon := Number.ofZ 0 |} in
  boundaryCoordinates (geojson result)
  = inr [pt 0 0; pt 0 1; pt 1 1; pt 0 0] /\
  exists encoded,
    staticMapUrl (fun _ => codeUnits "0") (codeUnits "KEY")
      (Some [result])
    = inr (codeUnits
             "https://maps.googleapis.com/maps/api/staticmap?center="
             ++ codeUnits "0" ++ codeUnits "," ++ codeUnits "0"
             ++ codeUnits "&zoom=" ++ codeUnits "0"
             ++ codeUnits "&size=600x300&scale=2&path=enc:"
             ++ encoded ++ codeUnits "&key=" ++ codeUnits "KEY") /\
    encoded
    = encodePolyline
        (simplifyPath (map toLatLng [pt 0 0; pt 0 1; pt 1 1; pt 0 0])
           (Number.decimal 1 3)) /\
    (length encoded <= 14 * length [pt 0 0; pt 0 1; pt 1 1; pt 0 0])%nat /\
    ((2 <= length [pt 0 0; pt 0 1; pt 1 1; pt 0 0])%nat ->
     (4 <= length encoded)%nat).
Proof.
  intros result. split; [reflexivity|].
  apply (staticMapUrl_polyline (fun _ => codeUnits "0") (codeUnits "KEY")
           result [] [pt 0 0; pt 0 1; pt 1 1; pt 0 0]).
  reflexivity.
Defined.
